(** * cidre: a shallow embedding of the dispatcher, the middleware chain,
      the signed session cookie and the in-memory session store

    Sources: [utils.go], [app.go], [session.go] of package [cidre].

    Conventions.
    - A Go [string] and a Go [[]byte] are both sequences of bytes; they are
      embedded as [string] (a list of 8-bit [ascii]).
    - A Go function that can panic returns a [go_result]: either the value it
      returns or the panic it raises.
    - A Go [map] is a [gmap]; where the code ranges over a map, the order of
      the visit is an explicit argument, because the language leaves it
      unspecified.
    - A Go [int] is a [Z]: the counters that occur (cursor of a chain,
      content length, argument counter) stay far from the bounds of [int].
    - A reading of [time.Now()] is an argument of the function that reads
      the clock. *)

From Stdlib Require Import ZArith NArith String Ascii List Lia Bool.
From Stdlib Require Import DecimalString.
From stdpp Require Import base option list gmap strings fin_maps.

Local Open Scope Z_scope.

(** ** Results of Go calls *)

(** The value carried by a panic.  Panic values are non-nil: [panic(nil)] is
    outside the model. *)
Inductive panic_value : Type :=
| PanicString (msg : string)                (* panic("...") and panic(err) *)
| PanicIndex (index : Z) (len : Z)          (* runtime error: index out of range [index] with length len *)
| PanicNilDereference                       (* runtime error: invalid memory address or nil pointer dereference *)
| PanicTypeAssertion (msg : string).        (* interface conversion failure *)

Inductive go_result (A : Type) : Type :=
| Returned (a : A)
| Panicked (v : panic_value).
Arguments Returned {A} a.
Arguments Panicked {A} v.

Definition go_bind {A B} (r : go_result A) (k : A -> go_result B) : go_result B :=
  match r with
  | Returned a => k a
  | Panicked v => Panicked v
  end.

#[global] Instance go_result_ret : MRet go_result := @Returned.
#[global] Instance go_result_bind : MBind go_result :=
  fun A B k r => go_bind r k.

(** [xs[i]] on a slice: a run-time panic when [i] is out of range. *)
Definition slice_index {A} (xs : list A) (i : Z) : go_result A :=
  if (0 <=? i) && (i <? Z.of_nat (length xs))
  then match nth_error xs (Z.to_nat i) with
       | Some x => Returned x
       | None => Panicked (PanicIndex i (Z.of_nat (length xs)))
       end
  else Panicked (PanicIndex i (Z.of_nat (length xs))).

(** ** Bytes and strings *)

Module Bytes.

Definition to_Z (c : ascii) : Z := Z.of_N (N_of_ascii c).
Definition of_Z (z : Z) : ascii := ascii_of_N (Z.to_N (z mod 256)).

Fixpoint unpack (s : string) : list Z :=
  match s with
  | EmptyString => []
  | String c s' => to_Z c :: unpack s'
  end.

Fixpoint pack (bs : list Z) : string :=
  match bs with
  | [] => EmptyString
  | b :: bs' => String (of_Z b) (pack bs')
  end.

End Bytes.

(** ** crypto/sha1 and crypto/hmac

    The two standard-library packages [SignString] relies on, written out so
    that the functions of [utils.go] can be evaluated.  [SHA1.sum] follows
    FIPS 180-4, [HMAC.mac] follows RFC 2104 with block size 64. *)

Module SHA1.

Definition w32 (x : Z) : Z := x mod 2 ^ 32.
Definition add32 (x y : Z) : Z := w32 (x + y).
Definition rotl (n x : Z) : Z :=
  w32 (Z.lor (Z.shiftl x n) (Z.shiftr x (32 - n))).
Definition not32 (x : Z) : Z := Z.lxor x 0xFFFFFFFF.

(** Big-endian encoding of [x] on [n] bytes. *)
Fixpoint be_bytes (n : nat) (x : Z) : list Z :=
  match n with
  | O => []
  | S n' => (Z.shiftr x (8 * Z.of_nat n')) mod 256 :: be_bytes n' x
  end.

Definition pad (msg : list Z) : list Z :=
  let len := Z.of_nat (length msg) in
  let zeros := Z.to_nat ((55 - len) mod 64) in
  msg ++ [0x80] ++ repeat 0 zeros ++ be_bytes 8 (8 * len).

Fixpoint be_words (n : nat) (bs : list Z) : list Z :=
  match n with
  | O => []
  | S n' =>
      match bs with
      | b0 :: b1 :: b2 :: b3 :: rest =>
          (Z.lor (Z.shiftl b0 24) (Z.lor (Z.shiftl b1 16) (Z.lor (Z.shiftl b2 8) b3)))
            :: be_words n' rest
      | _ => []
      end
  end.

(** The message schedule, most recent word first: from
    [w(t-1) :: w(t-2) :: ...] compute [n] more words. *)
Fixpoint schedule (n : nat) (rev_w : list Z) : list Z :=
  match n with
  | O => rev_w
  | S n' =>
      let w := rotl 1 (Z.lxor (Z.lxor (nth 2 rev_w 0) (nth 7 rev_w 0))
                              (Z.lxor (nth 13 rev_w 0) (nth 15 rev_w 0))) in
      schedule n' (w :: rev_w)
  end.

Definition f (t : nat) (b c d : Z) : Z :=
  if (t <? 20)%nat then Z.lor (Z.land b c) (Z.land (not32 b) d)
  else if (t <? 40)%nat then Z.lxor b (Z.lxor c d)
  else if (t <? 60)%nat then Z.lor (Z.land b c) (Z.lor (Z.land b d) (Z.land c d))
  else Z.lxor b (Z.lxor c d).

Definition K (t : nat) : Z :=
  if (t <? 20)%nat then 0x5A827999
  else if (t <? 40)%nat then 0x6ED9EBA1
  else if (t <? 60)%nat then 0x8F1BBCDC
  else 0xCA62C1D6.

Definition regs : Type := Z * Z * Z * Z * Z.

Fixpoint rounds (t : nat) (ws : list Z) (r : regs) : regs :=
  match ws with
  | [] => r
  | w :: ws' =>
      let '(a, b, c, d, e) := r in
      let tmp := add32 (add32 (add32 (add32 (rotl 5 a) (f t b c d)) e) (K t)) w in
      rounds (S t) ws' (tmp, a, rotl 30 b, c, d)
  end.

Definition block (h : regs) (bs : list Z) : regs :=
  let ws := rev (schedule 64 (rev (be_words 16 bs))) in
  let '(h0, h1, h2, h3, h4) := h in
  let '(a, b, c, d, e) := rounds 0 ws h in
  (add32 h0 a, add32 h1 b, add32 h2 c, add32 h3 d, add32 h4 e).

Fixpoint blocks (n : nat) (h : regs) (bs : list Z) : regs :=
  match n with
  | O => h
  | S n' => blocks n' (block h (firstn 64 bs)) (skipn 64 bs)
  end.

Definition init : regs :=
  (0x67452301, 0xEFCDAB89, 0x98BADCFE, 0x10325476, 0xC3D2E1F0).

Definition sum_bytes (msg : list Z) : list Z :=
  let p := pad msg in
  let '(h0, h1, h2, h3, h4) := blocks (length p / 64)%nat init p in
  be_bytes 4 h0 ++ be_bytes 4 h1 ++ be_bytes 4 h2 ++ be_bytes 4 h3 ++ be_bytes 4 h4.

(** [sha1.Sum(data)] as a byte string of length 20. *)
Definition sum (msg : string) : string :=
  Bytes.pack (sum_bytes (Bytes.unpack msg)).

End SHA1.

Module HMAC.

Definition block_size : nat := 64.

Definition xor_pad (p : Z) (key : list Z) : list Z :=
  map (fun b => Z.lxor b p) (key ++ repeat 0 (block_size - length key)).

(** HMAC-SHA1 of [msg] under [key] (20 bytes). *)
Definition mac (key msg : string) : string :=
  let k := Bytes.unpack key in
  let k := if (block_size <? length k)%nat then SHA1.sum_bytes k else k in
  let inner := SHA1.sum_bytes (xor_pad 0x36 k ++ Bytes.unpack msg) in
  Bytes.pack (SHA1.sum_bytes (xor_pad 0x5c k ++ inner)).

(** The [hash.Hash] returned by [hmac.New(sha1.New, key)]: the key and the
    bytes written to it so far. *)
Record t : Type := { key : string; written : string }.

Definition New (k : string) : t := {| key := k; written := "" |}.

(** [h.Write(p)] adds [p] to the running hash. *)
Definition Write (h : t) (p : string) : t :=
  {| key := key h; written := written h +:+ p |}.

(** [h.Sum(b)]: "Sum appends the current hash to b and returns the resulting
    slice.  It does not change the underlying hash state."  The argument is
    a prefix of the result, it is not hashed. *)
Definition Sum (h : t) (b : string) : string :=
  b +:+ mac (key h) (written h).

End HMAC.

(** ** fmt and strings *)

Definition ldigits : string := "0123456789abcdef".

Definition hex_digit (n : N) : ascii :=
  match String.get (N.to_nat n) ldigits with
  | Some c => c
  | None => "0"%char
  end.

(** The two digits [fmt] prints for one byte under [%x]:
    [digits[c>>4]], [digits[c&0xF]]. *)
Definition hex_byte (c : ascii) : string :=
  let n := N_of_ascii c in
  String (hex_digit (N.shiftr n 4)) (String (hex_digit (N.land n 15)) EmptyString).

(** [fmt.Sprintf("%x", b)] for a byte slice [b]. *)
Fixpoint Sprintf_x (b : string) : string :=
  match b with
  | EmptyString => EmptyString
  | String c b' => hex_byte c +:+ Sprintf_x b'
  end.

(** [strings.HasPrefix(s, prefix)]. *)
Fixpoint HasPrefix (s pre : string) {struct pre} : bool :=
  match pre with
  | EmptyString => true
  | String p pre' =>
      match s with
      | EmptyString => false
      | String c s' => if Ascii.eqb c p then HasPrefix s' pre' else false
      end
  end.

(** [s[n:]] for [n <= len(s)]. *)
Fixpoint string_drop (n : nat) (s : string) : string :=
  match n with
  | O => s
  | S n' => match s with
            | EmptyString => EmptyString
            | String _ s' => string_drop n' s'
            end
  end.

(** [strings.Cut(s, sep)]: the text before and after the first instance of
    [sep], or [None] when [sep] does not occur ([strings.Index] is [-1]). *)
Fixpoint Cut (s sep : string) : option (string * string) :=
  if HasPrefix s sep then Some (EmptyString, string_drop (String.length sep) s)
  else match s with
       | EmptyString => None
       | String c s' =>
           match Cut s' sep with
           | Some (before, after) => Some (String c before, after)
           | None => None
           end
       end.

(** [strings.Contains(s, sep)]. *)
Definition Contains (s sep : string) : bool :=
  match Cut s sep with Some _ => true | None => false end.

(** [strings.SplitN(s, sep, n)] for a non-empty separator and [n >= 0]: at
    most [n] substrings, the last one being the unsplit remainder. *)
Fixpoint SplitN (s sep : string) (n : nat) : list string :=
  match n with
  | O => []
  | S O => [s]
  | S n' =>
      match Cut s sep with
      | Some (before, after) => before :: SplitN after sep n'
      | None => [s]
      end
  end.

(** ** utils.go *)

(** [fmt.Sprintf("%x----%s", hmac.New(sha1.New, []byte(key)).Sum([]byte(value)), value)] *)
Definition SignString (value key : string) : string :=
  Sprintf_x (HMAC.Sum (HMAC.New key) value) +:+ "----" +:+ value.

Definition tampered : string := "data is tampered".

(** The pair [(string, error)] returned by [ValidateSignedString]; the error is
    [None] for [nil]. *)
Definition ValidateSignedString (value key : string)
  : go_result (string * option string) :=
  let parts := SplitN value "----" 2 in
  p0 ← slice_index parts 0;
  p1 ← slice_index parts 1;
  if String.eqb p0 (Sprintf_x (HMAC.Sum (HMAC.New key) p1))
  then Returned (p1, None)
  else Returned (EmptyString, Some tampered).


(** ** time

    A [time.Time] is embedded as a number of nanoseconds on one time line, a
    [time.Duration] as an [int64] number of nanoseconds. *)

Definition Time : Type := Z.
Definition Duration : Type := Z.

Definition minDuration : Duration := - 2 ^ 63.
Definition maxDuration : Duration := 2 ^ 63 - 1.

(** [t.Sub(u)]: "If the result exceeds the maximum (or minimum) value that can
    be stored in a Duration, the maximum (or minimum) duration will be
    returned." *)
Definition time_Sub (t u : Time) : Duration :=
  Z.max minDuration (Z.min maxDuration (t - u)).

(** ** session.go *)

(** The values kept in a [Dict] ([map[string]interface{}]). *)
Inductive value : Type :=
| VString (s : string)
| VInt (n : Z)
| VBool (b : bool)
| VFlash (m : gmap string (list string)).   (* map[string][]string *)

Record Session : Type := mkSession {
  sess_Dict : gmap string value;
  Killed : bool;
  Id : string;
  LastAccessTime : Time
}.

Definition FlashKey : string := "_flash".

Definition Session_Set (sess : Session) (key : string) (v : value) : Session :=
  mkSession (<[key := v]> (sess_Dict sess)) (Killed sess) (Id sess) (LastAccessTime sess).

(** [NewSession(id)]; [now] is the reading of [time.Now()]. *)
Definition NewSession (id : string) (now : Time) : Session :=
  Session_Set (mkSession ∅ false id now) FlashKey (VFlash ∅).

Definition UpdateLastAccessTime (sess : Session) (now : Time) : Session :=
  mkSession (sess_Dict sess) (Killed sess) (Id sess) now.

Definition Kill (sess : Session) : Session :=
  mkSession (sess_Dict sess) true (Id sess) (LastAccessTime sess).

(** [sess.Get(FlashKey).(map[string][]string)]: the type assertion panics when
    the key is missing or holds a value of another type. *)
Definition session_flash (sess : Session) : go_result (gmap string (list string)) :=
  match sess_Dict sess !! FlashKey with
  | Some (VFlash m) => Returned m
  | _ => Panicked (PanicTypeAssertion "interface conversion: interface {} is not map[string][]string")
  end.

(** [AddFlash] updates the flash map in place; the session's [Dict] keeps
    pointing to that one map, so the session afterwards holds the updated
    map under [FlashKey]. *)
Definition AddFlash (sess : Session) (category message : string) : go_result Session :=
  flash ← session_flash sess;
  let flash := match flash !! category with
               | Some _ => flash
               | None => <[category := []]> flash
               end in
  let flash := <[category := (flash !!! category) ++ [message]]> flash in
  Returned (Session_Set sess FlashKey (VFlash flash)).

(** [Flash(category)]: the messages of one category, which is removed. *)
Definition Flash (sess : Session) (category : string)
  : go_result (list string * Session) :=
  flash ← session_flash sess;
  let v := flash !! category in
  let sess' := Session_Set sess FlashKey (VFlash (delete category flash)) in
  match v with
  | None => Returned ([], sess')
  | Some v => Returned (v, sess')
  end.

(** [Flashes()]: the whole flash map, replaced in the session by a new empty
    map. *)
Definition Flashes (sess : Session)
  : go_result (gmap string (list string) * Session) :=
  flash ← session_flash sess;
  Returned (flash, Session_Set sess FlashKey (VFlash ∅)).

(** [MemorySessionStore]: the session collection, and the one value of the
    middleware's configuration that the store reads. *)
Record MemorySessionStore : Type := mkStore {
  store : gmap string Session;
  LifeTime : Duration                 (* ms.middleware.Config.LifeTime *)
}.

Definition Store_Exists (ms : MemorySessionStore) (sessionId : string) : bool :=
  bool_decide (is_Some (store ms !! sessionId)).

Definition Store_Delete (ms : MemorySessionStore) (sessionId : string) : MemorySessionStore :=
  mkStore (delete sessionId (store ms)) (LifeTime ms).

Definition Store_Count (ms : MemorySessionStore) : nat := size (store ms).

(** The first loop of [Gc].  [entries] are the entries of the store in the
    order in which [range] happens to visit them, [now i] is the reading of
    [time.Now()] in iteration [i]. *)
Fixpoint Gc_delkeys (lifetime : Duration) (now : nat -> Time) (i : nat)
    (entries : list (string * Session)) (delkeys : list string) : list string :=
  match entries with
  | [] => delkeys
  | (k, v) :: rest =>
      Gc_delkeys lifetime now (S i) rest
        (if lifetime <? time_Sub (now i) (LastAccessTime v)
         then delkeys ++ [k] else delkeys)
  end.

(** [range] over a Go map visits every entry once, in an order the language
    does not specify. *)
Definition range_order {V} (m : gmap string V) (entries : list (string * V)) : Prop :=
  entries ≡ₚ map_to_list m.

Definition Gc (ms : MemorySessionStore) (entries : list (string * Session))
    (now : nat -> Time) : MemorySessionStore :=
  foldl Store_Delete ms (Gc_delkeys (LifeTime ms) now 0 entries []).

(** ** app.go: response writer *)

(** The [http.ResponseWriter] handed to [App.ServeHTTP] by the transport: it
    keeps the status of the first [WriteHeader] (a [Write] before any
    [WriteHeader] implies status 200) and the chunks written, in order. *)
Record transport : Type := mkTransport {
  Code : option Z;
  Chunks : list string
}.

Definition transport_WriteHeader (t : transport) (code : Z) : transport :=
  match Code t with
  | Some _ => t
  | None => mkTransport (Some code) (Chunks t)
  end.

Definition transport_Write (t : transport) (b : string) : transport :=
  let t := transport_WriteHeader t 200 in
  mkTransport (Code t) (Chunks t ++ [b]).

(** The body received by the client. *)
Definition Body (t : transport) : string :=
  foldr String.append EmptyString (Chunks t).

(** [responseWriter].  Its private [hooks] registry is created empty by
    [NewResponseWriter] and only code running inside a request can add to it;
    the handlers of this model do not, so the three [Hooks().Run] calls of
    [WriteHeader] and [Write] run no hook and the field is left out. *)
Record responseWriter : Type := mkResponseWriter {
  ResponseWriter : transport;
  status : Z;
  contentLength : Z
}.

Definition NewResponseWriter (w : transport) : responseWriter :=
  mkResponseWriter w 0 0.

Definition rw_SetHeader (w : responseWriter) (st : Z) : responseWriter :=
  mkResponseWriter (ResponseWriter w) st (contentLength w).

Definition rw_WriteHeader (w : responseWriter) (st : Z) : responseWriter :=
  mkResponseWriter (transport_WriteHeader (ResponseWriter w) st) st (contentLength w).

Definition rw_Write (w : responseWriter) (b : string) : responseWriter :=
  let w :=
    if contentLength w =? 0
    then rw_WriteHeader w (if status w =? 0 then 200 else status w)
    else w in
  mkResponseWriter (transport_Write (ResponseWriter w) b) (status w)
    (contentLength w + Z.of_nat (String.length b)).

(** ** app.go: middleware *)

(** What the [ServeHTTP] of a handler, a middleware or a hook does to the
    framework while it serves one request: it writes to the response writer,
    looks at it, yields to the rest of the chain with
    [RequestContext(r).MiddlewareChain.DoNext(w, r)], panics, or returns. *)
Inductive prog : Type :=
| Ret
| Write (b : string) (k : prog)
| WriteHeader (st : Z) (k : prog)
| Inspect (k : responseWriter -> prog)
| DoNext (k : prog)
| Panic (v : panic_value).

Definition Middleware : Type := prog.
Definition Hook : Type := prog.

Record MiddlewareChain : Type := mkMiddlewareChain {
  middlewares : list Middleware;
  sp : Z
}.

Definition NewMiddlewareChain (mds : list Middleware) : MiddlewareChain :=
  mkMiddlewareChain mds (-1).

Definition MiddlewareChain_Copy (mc : MiddlewareChain) : MiddlewareChain :=
  NewMiddlewareChain (middlewares mc).

(** [NopMiddleware]: [func(w http.ResponseWriter, r *http.Request) {}]. *)
Definition NopMiddleware : Middleware := Ret.

(** ** app.go: routes *)

(** A compiled [*regexp.Regexp], through its [FindStringSubmatch]: the whole
    match followed by the text of each group, or [[]] ([nil]) for no match. *)
Definition Regexp : Type := string -> list string.

Record Route : Type := mkRoute {
  Name : string;
  PathParamNames : list string;
  Method : string;
  Pattern : Regexp;
  PatternString : string;
  IsStatic : bool;
  route_MiddlewareChain : MiddlewareChain;
  Meta : gmap string value
}.

(** *** The two fixed patterns of [NewRoute] and [BuildUrl]

    Go's regexp package prefers, among the matches that start leftmost, the
    one a backtracking search finds first; [x+] is greedy.  The patterns
    are built here from two matchers that take the rest of the pattern as a
    continuation. *)

Definition m_lit {R} (lit : string) (s : string) (k : string -> option R) : option R :=
  if HasPrefix s lit then k (string_drop (String.length lit) s) else None.

(** [[^c]+] followed by [k]: the continuation receives the text matched and
    the rest of the input; longer matches are tried first. *)
Fixpoint m_plus_not {R} (c : ascii) (s : string)
    (k : string -> string -> option R) : option R :=
  match s with
  | EmptyString => None
  | String a s' =>
      if Ascii.eqb a c then None
      else match m_plus_not c s' (fun m rest => k (String a m) rest) with
           | Some r => Some r
           | None => k (String a EmptyString) s'
           end
  end.

(** [\?P<([^<]+)>] at the start of [s]: the name captured and the input left. *)
Definition match_param_name (s : string) : option (string * string) :=
  m_lit "?P<" s (fun s1 =>
  m_plus_not "<" s1 (fun name s2 =>
  m_lit ">" s2 (fun s3 => Some (name, s3)))).

(** [\(\?P<([^<]+)>[^\)]+\)] at the start of [s]: the input left after the
    match. *)
Definition match_param_group (s : string) : option string :=
  m_lit "(?P<" s (fun s1 =>
  m_plus_not "<" s1 (fun _ s2 =>
  m_lit ">" s2 (fun s3 =>
  m_plus_not ")" s3 (fun _ s4 =>
  m_lit ")" s4 (fun s5 => Some s5))))).

(** [reg.FindAllStringSubmatch(p, -1)] for the pattern of [match_param_name],
    keeping [lst[1]] of each match.  The scan goes through [p] from left to
    right; [skip] counts the characters of [p] that belong to the match found
    last and are still to be passed over. *)
Fixpoint find_param_names (p : string) (skip : nat) : list string :=
  match p with
  | EmptyString => []
  | String _ p' =>
      match skip with
      | S n => find_param_names p' n
      | O =>
          match match_param_name p with
          | Some (name, rest) =>
              name :: find_param_names p' (String.length p' - String.length rest)
          | None => find_param_names p' 0
          end
      end
  end.

(** The number of matches [reg.ReplaceAllStringFunc] finds in [BuildUrl]. *)
Fixpoint count_param_groups (p : string) (skip : nat) : nat :=
  match p with
  | EmptyString => O
  | String _ p' =>
      match skip with
      | S n => count_param_groups p' n
      | O =>
          match match_param_group p with
          | Some rest => S (count_param_groups p' (String.length p' - String.length rest))
          | None => count_param_groups p' 0
          end
      end
  end.

(** [reg.ReplaceAllStringFunc(p, func(m string) string { counter += 1; return
    args[counter] })]: the closure is called once per match, from left to
    right, and panics on the first match for which [args] has no element. *)
Fixpoint replace_param_groups (p : string) (skip : nat) (args : list string)
    (counter : Z) : go_result string :=
  match p with
  | EmptyString => Returned EmptyString
  | String c p' =>
      match skip with
      | S n => replace_param_groups p' n args counter
      | O =>
          match match_param_group p with
          | Some rest =>
              let counter := counter + 1 in
              arg ← slice_index args counter;
              tail ← replace_param_groups p' (String.length p' - String.length rest) args counter;
              Returned (arg +:+ tail)
          | None =>
              tail ← replace_param_groups p' 0 args counter;
              Returned (String c tail)
          end
      end
  end.

(** [NewRoute].  [compile] stands for [regexp.MustCompile] on the patterns
    handed to it. *)
Definition NewRoute (compile : string -> Regexp) (n p m : string) (s : bool)
    (handler : Middleware) (mws : list Middleware) : Route :=
  mkRoute n (find_param_names p 0) m (compile ("^" +:+ p +:+ "$")) p s
    (NewMiddlewareChain (mws ++ [handler; NopMiddleware])) ∅.

(** ** app.go: context and execution of a chain *)

Record Context : Type := mkContext {
  ctx_Session : option Session;
  ctx_Route : option Route;
  PathParams : gmap string (list string);          (* url.Values *)
  StartedAt : Time;
  ResponseTime : Duration;
  ctx_MiddlewareChain : option MiddlewareChain
}.

(** [NewContext]: every field but [PathParams] has its zero value. *)
Definition NewContext : Context := mkContext None None ∅ 0 0 None.

(** [url.Values.Add(key, value)]. *)
Definition Values_Add (v : gmap string (list string)) (key val : string)
  : gmap string (list string) :=
  <[key := (v !!! key) ++ [val]]> v.

(** The part of the world one request can change: its response writer and
    its context. *)
Record request_state : Type := mkState {
  w : responseWriter;
  ctx : Context
}.

Definition set_w (st : request_state) (w' : responseWriter) : request_state :=
  mkState w' (ctx st).

Definition set_chain (st : request_state) (mc : option MiddlewareChain) : request_state :=
  mkState (w st)
    (mkContext (ctx_Session (ctx st)) (ctx_Route (ctx st)) (PathParams (ctx st))
       (StartedAt (ctx st)) (ResponseTime (ctx st)) mc).

Inductive outcome : Type :=
| Done                          (* the call returned *)
| Panicking (v : panic_value)   (* the call is unwinding with a panic *)
| OutOfFuel.                    (* the bound on nested [DoNext] calls was too small *)

(** [mc.sp += 1], then the element [mc.middlewares[mc.sp]]: the state after
    the increment, and the middleware to call or the panic raised ([mc] is
    the context's chain, [nil] until a route serves the request). *)
Definition advance (st : request_state) : request_state * go_result Middleware :=
  match ctx_MiddlewareChain (ctx st) with
  | None => (st, Panicked PanicNilDereference)
  | Some mc =>
      let mc' := mkMiddlewareChain (middlewares mc) (sp mc + 1) in
      (set_chain st (Some mc'), slice_index (middlewares mc') (sp mc'))
  end.

(** Execution of a [prog].  [fuel] bounds the depth of nested [DoNext]
    calls; [remaining] below is always enough. *)
Fixpoint exec (fuel : nat) : prog -> request_state -> outcome * request_state :=
  fix run (p : prog) (st : request_state) {struct p} : outcome * request_state :=
    match p with
    | Ret => (Done, st)
    | Write b k => run k (set_w st (rw_Write (w st) b))
    | WriteHeader s k => run k (set_w st (rw_WriteHeader (w st) s))
    | Inspect k => run (k (w st)) st
    | Panic v => (Panicking v, st)
    | DoNext k =>
        match advance st with
        | (st', Panicked v) => (Panicking v, st')
        | (st', Returned md) =>
            match fuel with
            | O => (OutOfFuel, st')
            | S fuel' =>
                match exec fuel' md st' with
                | (Done, st'') => run k st''
                | other => other
                end
            end
        end
    end.

(** The number of middlewares after the cursor. *)
Definition remaining (st : request_state) : nat :=
  match ctx_MiddlewareChain (ctx st) with
  | None => O
  | Some mc => Z.to_nat (Z.of_nat (length (middlewares mc)) - 1 - sp mc)
  end.

Definition run (p : prog) (st : request_state) : outcome * request_state :=
  exec (remaining st) p st.

(** A sequence of calls; a panic skips the calls that follow. *)
Fixpoint run_all (ps : list prog) (st : request_state) : outcome * request_state :=
  match ps with
  | [] => (Done, st)
  | p :: ps' =>
      match run p st with
      | (Done, st') => run_all ps' st'
      | other => other
      end
  end.

(** [route.ServeHTTP]: a copy of the route's chain becomes the chain of the
    context, then [DoNext]. *)
Definition Route_ServeHTTP (route : Route) (st : request_state)
  : outcome * request_state :=
  run (DoNext Ret)
    (set_chain st (Some (MiddlewareChain_Copy (route_MiddlewareChain route)))).

(** ** app.go: hooks *)

Inductive HookDirection : Type :=
| HookDirectionNormal
| HookDirectionReverse.

Definition Hooks : Type := gmap string (list Hook).

Definition Hooks_Run (hooks : Hooks) (name : string) (direction : HookDirection)
    (st : request_state) : outcome * request_state :=
  match direction with
  | HookDirectionNormal => run_all (hooks !!! name) st
  | HookDirectionReverse => run_all (rev (hooks !!! name)) st
  end.

Definition Hooks_Add (hooks : Hooks) (name : string) (hook : Hook) : Hooks :=
  <[name := (hooks !!! name) ++ [hook]]> hooks.

(** ** app.go: the application *)

Record AppConfig : Type := mkAppConfig {
  Debug : bool;
  AllowHttpMethodOverwrite : bool
}.

Definition DefaultAppConfig : AppConfig := mkAppConfig false true.

Record App : Type := mkApp {
  Config : AppConfig;
  Routes : gmap string Route;
  Middlewares : list Middleware;
  (* the handlers are bound to the application and read its current
     configuration when they are called *)
  OnPanic : AppConfig -> panic_value -> prog;
  OnNotFound : prog;
  app_Hooks : Hooks
}.

(** [http.Error(w, error, code)]: [w.WriteHeader(code)], then
    [fmt.Fprintln(w, error)]. *)
Definition http_Error (error : string) (code : Z) : prog :=
  WriteHeader code (Write (error +:+ String "010" EmptyString) Ret).

Definition StatusInternalServerError : Z := 500.
Definition StatusNotFound : Z := 404.

(** [DefaultOnPanic]; [report rcv] stands for
    [fmt.Sprintf("%v:\n\n%s", rcv, debug.Stack())]. *)
Definition DefaultOnPanic (report : panic_value -> string) (cfg : AppConfig)
    (rcv : panic_value) : prog :=
  if Debug cfg
  then http_Error (report rcv) StatusInternalServerError
  else http_Error "Internal Server Error" StatusInternalServerError.

(** [DefaultOnNotFound]: [http.NotFound]. *)
Definition DefaultOnNotFound : prog :=
  http_Error "404 page not found" StatusNotFound.

Definition NewApp (report : panic_value -> string) (config : AppConfig) : App :=
  mkApp config ∅ [] (DefaultOnPanic report) DefaultOnNotFound ∅.

Definition App_Use (app : App) (mws : list Middleware) : App :=
  mkApp (Config app) (Routes app) (Middlewares app ++ mws) (OnPanic app)
    (OnNotFound app) (app_Hooks app).

Definition set_Routes (app : App) (routes : gmap string Route) : App :=
  mkApp (Config app) routes (Middlewares app) (OnPanic app) (OnNotFound app)
    (app_Hooks app).

(** [strings.TrimRight(s, "/")]. *)
Fixpoint TrimRight_slash (s : string) : string :=
  match s with
  | EmptyString => EmptyString
  | String c s' =>
      match TrimRight_slash s' with
      | EmptyString => if Ascii.eqb c "/" then EmptyString else String c EmptyString
      | t => String c t
      end
  end.

Record MountPoint : Type := mkMountPoint {
  Path : string;
  mp_Middlewares : list Middleware
}.

Definition App_MountPoint (app : App) (path : string) : MountPoint :=
  mkMountPoint (TrimRight_slash path +:+ "/") (Middlewares app).

Definition MountPoint_Use (mt : MountPoint) (mws : list Middleware) : MountPoint :=
  mkMountPoint (Path mt) (mp_Middlewares mt ++ mws).

(** [mt.Route]: the route is stored under its name in the routes of the
    application the mount point belongs to. *)
Definition MountPoint_Route (compile : string -> Regexp) (mt : MountPoint) (app : App)
    (n p m : string) (s : bool) (h : Middleware) (mws : list Middleware) : App :=
  let route := NewRoute compile n (Path mt +:+ p) m s h (mp_Middlewares mt ++ mws) in
  set_Routes app (<[n := route]> (Routes app)).

Definition MountPoint_Get (compile : string -> Regexp) (mt : MountPoint) (app : App)
    (n p : string) (h : Middleware) (mws : list Middleware) : App :=
  MountPoint_Route compile mt app n p "GET" false h mws.

(** [BuildUrl]. *)
Definition BuildUrl (app : App) (n : string) (args : list string) : go_result string :=
  match Routes app !! n with
  | None => Panicked (PanicString ("Route '" +:+ n +:+ "' not defined."))
  | Some route => replace_param_groups (PatternString route) 0 args (-1)
  end.

(** ** app.go: dispatch *)

(** [strings.ToUpper] on the ASCII range, which is where the names of HTTP
    methods live; other bytes are left as they are. *)
Definition upper_ascii (c : ascii) : ascii :=
  let n := N_of_ascii c in
  if ((97 <=? n) && (n <=? 122))%N then ascii_of_N (n - 32) else c.

Fixpoint ToUpper (s : string) : string :=
  match s with
  | EmptyString => EmptyString
  | String c s' => String (upper_ascii c) (ToUpper s')
  end.

(** What [App.ServeHTTP] reads from the [*http.Request]. *)
Record Request : Type := mkRequest {
  req_Method : string;
  URL_Path : string;
  PostFormValue_method : string        (* r.PostFormValue("_method") *)
}.

(** Sequencing of two steps of a request: the second runs when the first
    returned. *)
Definition and_then (r : outcome * request_state)
    (k : request_state -> outcome * request_state) : outcome * request_state :=
  match r with
  | (Done, st) => k st
  | other => other
  end.

(** [for i, pathParamName := range route.PathParamNames {
       ctx.PathParams.Add(pathParamName, submatches[i+1]) }] *)
Fixpoint bind_params (names : list string) (submatches : list string) (i : Z)
    (params : gmap string (list string)) : outcome * gmap string (list string) :=
  match names with
  | [] => (Done, params)
  | name :: names' =>
      match slice_index submatches (i + 1) with
      | Panicked v => (Panicking v, params)
      | Returned val => bind_params names' submatches (i + 1) (Values_Add params name val)
      end
  end.

Definition method_matches (method : string) (route : Route) : bool :=
  String.eqb (ToUpper method) (ToUpper (Method route)).

Definition pattern_matches (path : string) (route : Route) : bool :=
  (0 <? length (Pattern route path))%nat.

(** The loop of [App.ServeHTTP] over the routes, in the order [routes] in
    which [range app.Routes] visits them.  It starts with [ctx.Route == nil]. *)
Fixpoint match_routes (method path : string) (routes : list Route)
    (params : gmap string (list string))
  : outcome * (gmap string (list string) * option Route) :=
  match routes with
  | [] => (Done, (params, None))
  | route :: routes' =>
      if negb (method_matches method route)
      then match_routes method path routes' params
      else if pattern_matches path route
      then match bind_params (PathParamNames route) (Pattern route path) 0 params with
           | (Done, params') => (Done, (params', Some route))
           | (o, params') => (o, (params', None))
           end
      else match_routes method path routes' params
  end.

Definition set_route (st : request_state) (params : gmap string (list string))
    (route : option Route) : request_state :=
  mkState (w st)
    (mkContext (ctx_Session (ctx st)) route params (StartedAt (ctx st))
       (ResponseTime (ctx st)) (ctx_MiddlewareChain (ctx st))).

Definition set_ResponseTime (st : request_state) (d : Duration) : request_state :=
  mkState (w st)
    (mkContext (ctx_Session (ctx st)) (ctx_Route (ctx st)) (PathParams (ctx st))
       (StartedAt (ctx st)) d (ctx_MiddlewareChain (ctx st))).

Definition request_method (app : App) (r : Request) : string :=
  if AllowHttpMethodOverwrite (Config app)
  then if (0 <? String.length (PostFormValue_method r))%nat
       then PostFormValue_method r else req_Method r
  else req_Method r.

(** The state in which [App.ServeHTTP] registers its deferred [cleanup]:
    the wrapped response writer and a new context started at [now]. *)
Definition initial_state (ww : transport) (now : Time) : request_state :=
  mkState (NewResponseWriter ww)
    (mkContext None None ∅ now 0 None).

(** [App.ServeHTTP] after the [defer] statement.  [entries] are the entries
    of [app.Routes] in the order in which [range] visits them. *)
Definition ServeHTTP_body (app : App) (entries : list (string * Route)) (r : Request)
    (st : request_state) : outcome * request_state :=
  and_then (Hooks_Run (app_Hooks app) "start_request" HookDirectionNormal st) (fun st =>
  match match_routes (request_method app r) (URL_Path r) (entries.*2)
          (PathParams (ctx st)) with
  | (Done, (params, None)) => run (OnNotFound app) (set_route st params None)
  | (Done, (params, Some route)) =>
      and_then (Hooks_Run (app_Hooks app) "start_action" HookDirectionNormal
                  (set_route st params (Some route))) (fun st =>
      and_then (Route_ServeHTTP route st) (fun st =>
      Hooks_Run (app_Hooks app) "end_action" HookDirectionReverse st))
  | (o, (params, _)) => (o, set_route st params None)
  end).

(** [app.cleanup], run by [defer] when the body returns or panics; [now] is
    its reading of [time.Now()].  [recover()] stops the panic of the body;
    a panic raised by the panic handler or by a hook leaves [cleanup]. *)
Definition cleanup (app : App) (now : Time) (r : outcome * request_state)
  : outcome * request_state :=
  let recovered :=
    match r with
    | (Panicking rcv, st) => run (OnPanic app (Config app) rcv) st
    | other => other
    end in
  and_then recovered (fun st =>
  Hooks_Run (app_Hooks app) "end_request" HookDirectionReverse
    (set_ResponseTime st (time_Sub now (StartedAt (ctx st))))).

Definition ServeHTTP (app : App) (entries : list (string * Route)) (r : Request)
    (ww : transport) (started finished : Time) : outcome * request_state :=
  cleanup app finished (ServeHTTP_body app entries r (initial_state ww started)).

(** The route a request is dispatched to, for one order of visit. *)
Definition dispatch (app : App) (entries : list (string * Route)) (r : Request)
  : option Route :=
  (match_routes (request_method app r) (URL_Path r) (entries.*2) ∅).2.2.

(** ** Notions used in the statements *)

(** The cookie value as the specification describes it: the HMAC-SHA1 of the
    value under the key, in hexadecimal, the separator, the value. *)
Definition SignString_spec (value key : string) : string :=
  Sprintf_x (HMAC.mac key value) +:+ "----" +:+ value.

(** [s'] is [s] with the character at one position replaced by another
    character. *)
Definition one_char_changed (s s' : string) : Prop :=
  exists (a b : string) (c c' : ascii),
    s = a +:+ String c b /\ s' = a +:+ String c' b /\ c <> c'.

(** A validation that fails: the call returns the error ["data is
    tampered"] (with the empty string), or it panics on [parts[1]]. *)
Definition validation_fails (r : go_result (string * option string)) : Prop :=
  r = Returned (EmptyString, Some tampered) \/ r = Panicked (PanicIndex 1 1).

(** What [SessionMiddleware.ServeHTTP] does with the cookie of the request:
    no cookie, no session id; a cookie is validated, and the middleware
    panics with the error when there is one. *)
Definition session_id_of_cookie (cookie : option string) (secret : string)
  : go_result (option string) :=
  match cookie with
  | None => Returned None
  | Some signedString =>
      r ← ValidateSignedString signedString secret;
      match r.2 with
      | Some err => Panicked (PanicString err)
      | None => Returned (Some r.1)
      end
  end.

(** The value of a hexadecimal digit and of the two digits of a byte. *)
Definition unhex_digit (c : ascii) : N :=
  let n := N_of_ascii c in
  if (n <? 58)%N then n - 48 else n - 87.

Definition unhex_byte (s : string) : ascii :=
  match s with
  | String h (String l _) => ascii_of_N (16 * unhex_digit h + unhex_digit l)
  | _ => "000"%char
  end.

(** The four calls of the flash scenario on one session: the maps returned
    by the first and by the second [Flashes()]. *)
Definition flash_scenario (sess : Session)
  : go_result (gmap string (list string) * gmap string (list string)) :=
  s1 ← AddFlash sess "info" "a";
  s2 ← AddFlash s1 "info" "b";
  r1 ← Flashes s2;
  r2 ← Flashes r1.2;
  Returned (r1.1, r2.1).

(** A session that already carries one flash message when the scenario
    starts: [NewSession("s1")], then [AddFlash("info", "x")]. *)
Definition session_with_flash : Session :=
  Session_Set (NewSession "s1" 0) FlashKey (VFlash {["info" := ["x"]]}).

(** A store with an old session and a recent one, for a lifetime of 30
    minutes. *)
Definition minute : Duration := 60 * 1000000000.

Definition two_sessions : MemorySessionStore :=
  mkStore (<["old" := NewSession "old" 0]>
             (<["new" := NewSession "new" (40 * minute)]> ∅))
          (30 * minute).

(** A middleware that writes [pre], yields to the rest of the chain and then
    writes [post]. *)
Definition around (pre post : string) : Middleware :=
  Write pre (DoNext (Write post Ret)).

(** The chunks the transport has received. *)
Definition written (st : request_state) : list string :=
  Chunks (ResponseWriter (w st)).

(** The cursor of the context's chain stands on the element [i] of the
    middlewares [mds]. *)
Definition cursor_at (st : request_state) (mds : list Middleware) (i : Z) : Prop :=
  ctx_MiddlewareChain (ctx st) = Some (mkMiddlewareChain mds i).

(** ** Example applications

    The routes of the examples are registered as in the tests of the
    package.  [simple_regexp] stands for [regexp.MustCompile] on their
    patterns: it implements the anchored patterns made of literal characters
    and of groups [(?P<name>[^/]+)]. *)

Inductive token : Type :=
| TChar (c : ascii)        (* a literal character *)
| TParam                   (* (?P<name>[^/]+) *)
| TEnd.                    (* $ *)

Fixpoint tokens (p : string) (skip : nat) : list token :=
  match p with
  | EmptyString => []
  | String c p' =>
      match skip with
      | S n => tokens p' n
      | O =>
          match m_lit "(?P<" p (fun s1 =>
                m_plus_not ">" s1 (fun _ s2 =>
                m_lit ">[^/]+)" s2 Some)) with
          | Some rest => TParam :: tokens p' (String.length p' - String.length rest)
          | None =>
              (if Ascii.eqb c "$" then TEnd else TChar c) :: tokens p' 0
          end
      end
  end.

Fixpoint match_tokens (ts : list token) (s : string) (groups : list string)
  : option (list string) :=
  match ts with
  | [] => None
  | TEnd :: _ => match s with EmptyString => Some groups | _ => None end
  | TChar c :: ts' =>
      match s with
      | String a s' => if Ascii.eqb a c then match_tokens ts' s' groups else None
      | EmptyString => None
      end
  | TParam :: ts' =>
      m_plus_not "/" s (fun g rest => match_tokens ts' rest (groups ++ [g]))
  end.

Definition simple_regexp (pattern : string) : Regexp :=
  fun path =>
    match pattern with
    | String "^" body =>
        match match_tokens (tokens body 0) path [] with
        | Some groups => path :: groups
        | None => []
        end
    | _ => []
    end.

Definition no_report : panic_value -> string := fun _ => "".

(** [TestAppBuildUrl]: two routes with two parameters each under ["/"]. *)
Definition buildurl_app : App :=
  let app := NewApp no_report DefaultAppConfig in
  let root := App_MountPoint app "/" in
  let app := MountPoint_Get simple_regexp root app
               "p1" "p1/(?P<param1>[^/]+)/(?P<param2>[^/]+)" Ret [] in
  MountPoint_Get simple_regexp root app
    "p2" "p2/(?P<aaa>[^/]+)/(?P<bbb>[^/]+)" Ret [].

(** [TestAppPanic], with two [end_request] hooks added: the handler of
    ["/page1"] panics. *)
Definition panic_app : App :=
  let app := NewApp no_report DefaultAppConfig in
  let root := App_MountPoint app "/" in
  let app := MountPoint_Get simple_regexp root app
               "page1" "page1" (Panic (PanicString "panic!")) [] in
  mkApp (Config app) (Routes app) (Middlewares app) (OnPanic app) (OnNotFound app)
    (Hooks_Add (Hooks_Add (app_Hooks app) "end_request" (Write "hook1" Ret))
       "end_request" (Write "hook2" Ret)).

Definition get_page1 : Request := mkRequest "GET" "/page1" "".

(** Two routes of one application that both match ["/pages/new"]. *)
Definition pages_app : App :=
  let app := NewApp no_report DefaultAppConfig in
  let root := App_MountPoint app "/" in
  let app := MountPoint_Get simple_regexp root app
               "show_page" "pages/(?P<name>[^/]+)" (Write "show" Ret) [] in
  MountPoint_Get simple_regexp root app "new_page" "pages/new" (Write "new" Ret) [].

Definition show_page : Route :=
  NewRoute simple_regexp "show_page" "/pages/(?P<name>[^/]+)" "GET" false
    (Write "show" Ret) [].

Definition new_page : Route :=
  NewRoute simple_regexp "new_page" "/pages/new" "GET" false (Write "new" Ret) [].

Definition get_pages_new : Request := mkRequest "GET" "/pages/new" "".

(** A route answers a request: its method is the method of the request up
    to the case of the letters and its pattern matches the path. *)
Definition route_matches (method path : string) (route : Route) : bool :=
  method_matches method route && pattern_matches path route.

Definition empty_transport : transport := mkTransport None [].

(** The state in which the handler of [panic_app] panics. *)
Definition state_at_panic : request_state :=
  (ServeHTTP_body panic_app (map_to_list (Routes panic_app)) get_page1
     (initial_state empty_transport 10)).2.

(** [TestAppMiddleware]: two middlewares on the application, two on the
    mount point ["/p1"], one on the route [page1]. *)
Definition testMd (i : string) : Middleware :=
  around ("md" +:+ i +:+ "-1") ("md" +:+ i +:+ "-2").

Definition middleware_app : App :=
  let app := App_Use (NewApp no_report DefaultAppConfig) [testMd "1"; testMd "3"] in
  let p1 := MountPoint_Use (App_MountPoint app "/p1") [testMd "2"; testMd "4"] in
  let app := MountPoint_Get simple_regexp p1 app "page1" "page1" Ret [testMd "3"] in
  let app := MountPoint_Get simple_regexp p1 app "page2" "page2" Ret [] in
  let p2 := App_MountPoint app "/p2" in
  MountPoint_Get simple_regexp p2 app "page3" "page3" Ret [].

(** The body and the status the client receives for a [GET] of [path]. *)
Definition get (app : App) (path : string) : string * option Z :=
  let r := ServeHTTP app (map_to_list (Routes app)) (mkRequest "GET" path "")
             empty_transport 0 0 in
  (Body (ResponseWriter (w r.2)), Code (ResponseWriter (w r.2))).

(** * The rest of the three files *)

(** ** utils.go: Dict

    A [Dict] is the [gmap string value] already used for the values of a
    session; the values are non-nil. *)

Definition Dict_Get (self : gmap string value) (key : string) : option value :=
  self !! key.

Definition Dict_Has (self : gmap string value) (key : string) : bool :=
  bool_decide (is_Some (self !! key)).

Definition Dict_Set (self : gmap string value) (key : string) (v : value)
  : gmap string value :=
  <[key := v]> self.

Definition Dict_Del (self : gmap string value) (key : string) : gmap string value :=
  delete key self.

(** [Pop]: the value read, and the dictionary after the deletion. *)
Definition Dict_Pop (self : gmap string value) (key : string)
  : option value * gmap string value :=
  let v := Dict_Get self key in
  (v, Dict_Del self key).

Definition Dict_GetOr (self : gmap string value) (key : string) (v : option value)
  : option value :=
  if Dict_Has self key then Dict_Get self key else v.

(** [Update]: [for key, value := range other { self[key] = value }];
    [entries] are the entries of [other] in the order of the visit. *)
Definition Dict_Update (self : gmap string value) (entries : list (string * value))
  : gmap string value :=
  foldl (fun m kv => <[kv.1 := kv.2]> m) self entries.

(** [self.Copy(other)] is [Dict(other).Update(self)]: it is [other] that
    changes; [entries] are the entries of [self]. *)
Definition Dict_Copy (entries : list (string * value)) (other : gmap string value)
  : gmap string value :=
  Dict_Update other entries.

Definition Dict_GetString (self : gmap string value) (key : string) : go_result string :=
  match self !! key with
  | Some (VString s) => Returned s
  | Some _ => Panicked (PanicTypeAssertion "interface conversion: interface {} is not string")
  | None => Returned EmptyString
  end.

Definition Dict_GetInt (self : gmap string value) (key : string) : go_result Z :=
  match self !! key with
  | Some (VInt n) => Returned n
  | Some _ => Panicked (PanicTypeAssertion "interface conversion: interface {} is not int")
  | None => Returned 0
  end.

Definition Dict_GetBool (self : gmap string value) (key : string) : go_result bool :=
  match self !! key with
  | Some (VBool b) => Returned b
  | Some _ => Panicked (PanicTypeAssertion "interface conversion: interface {} is not bool")
  | None => Returned false
  end.

(** ** strings and strconv, continued *)

(** [strings.Index(s, sep)]. *)
Definition Index (s sep : string) : Z :=
  match Cut s sep with
  | Some (before, _) => Z.of_nat (String.length before)
  | None => -1
  end.

(** [strings.Count(s, sep)] for a non-empty separator: the instances that do
    not overlap; [fuel] bounds their number. *)
Fixpoint Count_upto (fuel : nat) (s sep : string) : nat :=
  match fuel with
  | O => O
  | S fuel' =>
      match Cut s sep with
      | Some (_, after) => S (Count_upto fuel' after sep)
      | None => O
      end
  end.

Definition Count (s sep : string) : nat := Count_upto (String.length s) s sep.

(** [strings.Split(s, sep)] for a non-empty separator:
    [genSplit(s, sep, 0, -1)], where [n] becomes [Count(s, sep) + 1]. *)
Definition Split (s sep : string) : list string :=
  SplitN s sep (S (Count s sep)).

(** [strconv.Itoa], and [%v] on an integer. *)
Definition Itoa (n : Z) : string := NilEmpty.string_of_int (Z.to_int n).

(** ** session.go: the memory store, continued *)

(** The id [NewSessionId] tries for one reading of the clock (in seconds) and
    of [rand.Int()]:
    [fmt.Sprintf("%x", sha1.Sum([]byte(fmt.Sprintf("%v%v%v", now, random, secret))))]. *)
Definition session_id_candidate (secret : string) (now random : Z) : string :=
  Sprintf_x (SHA1.sum (Itoa now +:+ Itoa random +:+ secret)).

(** [NewSessionId]: the loop tries ids until one is not in the store.
    [readings] are the readings of [time.Now().Unix()] and [rand.Int()] of
    the successive iterations; the result is [None] when every one of them
    gives an id that is taken, in which case the loop is still running. *)
Fixpoint NewSessionId (ms : MemorySessionStore) (secret : string)
    (readings : list (Z * Z)) : option string :=
  match readings with
  | [] => None
  | (now, random) :: readings' =>
      let sessionId := session_id_candidate secret now random in
      if Store_Exists ms sessionId
      then NewSessionId ms secret readings'
      else Some sessionId
  end.


(** [NewSession]: [now] is the reading of the clock in [NewSession(id)]. *)
Definition Store_NewSession (ms : MemorySessionStore) (secret : string)
    (readings : list (Z * Z)) (now : Time) : option (Session * MemorySessionStore) :=
  match NewSessionId ms secret readings with
  | None => None
  | Some id =>
      let session := NewSession id now in
      Some (session, mkStore (<[Id session := session]> (store ms)) (LifeTime ms))
  end.

Definition Store_Save (ms : MemorySessionStore) (session : Session) : MemorySessionStore :=
  ms.

Definition Store_Load (ms : MemorySessionStore) (secret : string)
    (readings : list (Z * Z)) (now : Time) (sessionId : string)
  : option (Session * MemorySessionStore) :=
  match store ms !! sessionId with
  | Some session => Some (session, ms)
  | None => Store_NewSession ms secret readings now
  end.

(** ** session.go: the middleware *)

Record SessionConfig : Type := mkSessionConfig {
  CookieName : string;
  CookieDomain : string;
  CookieSecure : bool;
  CookiePath : string;
  CookieExpires : Duration;
  Secret : string;
  SessionStore : string;
  GcInterval : Duration;
  cfg_LifeTime : Duration
}.

Definition DefaultSessionConfig : SessionConfig :=
  mkSessionConfig "gosessionid" "" false "" 0 "" "cidre.MemorySessionStore"
    (30 * 60 * 1000000000) (30 * 60 * 1000000000).

(** The fields of [http.Cookie] the middleware sets; [Expires] is [None] for
    the zero time. *)
Record Cookie : Type := mkCookie {
  cookie_Name : string;
  cookie_Value : string;
  cookie_Path : string;
  cookie_Domain : string;
  cookie_Expires : option Time;
  cookie_MaxAge : Z;
  cookie_Secure : bool;
  cookie_HttpOnly : bool
}.

(** [session.UpdateLastAccessTime()] on the session the store holds under
    [key]: the store and the context point to one session, so the entry of
    the store changes with it. *)
Definition touch_session (ms : MemorySessionStore) (key : string) (session : Session)
    (now : Time) : Session * MemorySessionStore :=
  let session' := UpdateLastAccessTime session now in
  (session', mkStore (<[key := session']> (store ms)) (LifeTime ms)).

(** The first closure of [SessionMiddleware.ServeHTTP], run under the lock
    of the store: [cookie] is the value of the cookie named
    [Config.CookieName], if the request has one.  The result is the session
    attached to the context and the store afterwards; [created] and
    [accessed] are the readings of the clock in [NewSession] and in
    [UpdateLastAccessTime]. *)
Definition attach_session (cfg : SessionConfig) (ms : MemorySessionStore)
    (cookie : option string) (readings : list (Z * Z)) (created accessed : Time)
  : go_result (option (Session * MemorySessionStore)) :=
  match cookie with
  | Some signedString =>
      r ← ValidateSignedString signedString (Secret cfg);
      match r.2 with
      | Some err => Panicked (PanicString err)
      | None =>
          (* the session loaded lives under the id asked for, a session
             made by [Load] under its own id *)
          let key session := if Store_Exists ms r.1 then r.1 else Id session in
          Returned
            (match Store_Load ms (Secret cfg) readings created r.1 with
             | Some (session, ms') =>
                 Some (touch_session ms' (key session) session accessed)
             | None => None
             end)
      end
  | None =>
      Returned
        (match Store_NewSession ms (Secret cfg) readings created with
         | Some (session, ms') => Some (touch_session ms' (Id session) session accessed)
         | None => None
         end)
  end.

(** The hook the middleware registers for [before_write_header], run under
    the lock of the store: [path] is [r.URL.Path], [host] is [r.Host],
    [session] is [ctx.Session].  The result is the cookie handed to
    [http.SetCookie], if any, and the store afterwards. *)
Definition finalize_session (cfg : SessionConfig) (ms : MemorySessionStore)
    (path host : string) (session : option Session) (now : Time)
  : go_result (option Cookie * MemorySessionStore) :=
  if negb (Index path (CookiePath cfg) =? 0) then Returned (None, ms)
  else
    domain ← (if (String.length (CookieDomain cfg) =? 0)%nat
              then slice_index (Split host ":") 0
              else Returned (CookieDomain cfg));
    let expires := if CookieExpires cfg =? 0 then None
                   else Some (now + CookieExpires cfg) in
    match session with
    | None => Returned (None, ms)
    | Some session =>
        let '(maxAge, ms') :=
          if Killed session then (-1, Store_Delete ms (Id session))
          else (0, Store_Save ms session) in
        Returned
          (Some (mkCookie (CookieName cfg) (SignString (Id session) (Secret cfg))
                   (CookiePath cfg) domain expires maxAge (CookieSecure cfg) true),
           ms')
    end.

(** ** app.go: log levels *)

Definition LogLevelUnknown : Z := 0.
Definition LogLevelDebug : Z := 1.
Definition LogLevelInfo : Z := 2.
Definition LogLevelWarn : Z := 3.
Definition LogLevelError : Z := 4.
Definition LogLevelCrit : Z := 5.

Definition logLevelStrings : gmap Z string :=
  <[LogLevelDebug := "DEBUG"]> (<[LogLevelInfo := "INFO"]> (<[LogLevelWarn := "WARN"]>
    (<[LogLevelError := "ERROR"]> (<[LogLevelCrit := "CRIT"]> ∅)))).

Definition LogLevel_String (ll : Z) : string :=
  match logLevelStrings !! ll with
  | None => "UNKNOWN"
  | Some v => v
  end.

(** The guard of [SessionMiddleware.ServeHTTP] on a dynamic route:
    [strings.HasPrefix(r.URL.Path, sm.Config.CookiePath)]; when it fails the
    middleware returns at once. *)
Definition session_applies (cfg : SessionConfig) (path : string) : bool :=
  HasPrefix path (CookiePath cfg).

(** ** Notions used in the statements, continued *)

(** What can be computed from one signed value alone, without the key: the
    text after the separator is the value that was signed, the hexadecimal
    text in front of the separator, less two digits per byte of that value,
    is the tag; and then a signed value for [id]. *)
Definition resign (signed id : string) : option string :=
  match Cut signed "----" with
  | Some (before, old) =>
      Some (Sprintf_x id +:+ string_drop (2 * String.length old) before
              +:+ "----" +:+ id)
  | None => None
  end.

(** [AddFlash(category, m)] for the messages [msgs], one after the other. *)
Fixpoint AddFlash_all (sess : Session) (category : string) (msgs : list string)
  : go_result Session :=
  match msgs with
  | [] => Returned sess
  | m :: msgs' => sess' ← AddFlash sess category m; AddFlash_all sess' category msgs'
  end.

(** The calls a handler makes on its session. *)
Inductive session_call : Type :=
| CallAddFlash (category message : string)
| CallFlash (category : string)
| CallFlashes
| CallKill
| CallUpdateLastAccessTime (now : Time).

Definition session_do (sess : Session) (c : session_call) : go_result Session :=
  match c with
  | CallAddFlash category message => AddFlash sess category message
  | CallFlash category => r ← Flash sess category; Returned r.2
  | CallFlashes => r ← Flashes sess; Returned r.2
  | CallKill => Returned (Kill sess)
  | CallUpdateLastAccessTime now => Returned (UpdateLastAccessTime sess now)
  end.

Fixpoint session_do_all (sess : Session) (cs : list session_call) : go_result Session :=
  match cs with
  | [] => Returned sess
  | c :: cs' => sess' ← session_do sess c; session_do_all sess' cs'
  end.

(** [w.Write(b)] for the chunks [bs], one after the other. *)
Definition rw_Write_all (w : responseWriter) (bs : list string) : responseWriter :=
  foldl rw_Write w bs.


(** A block of [around] middlewares, one for each pair of chunks. *)
Definition arounds (pairs : list (string * string)) : list Middleware :=
  map (fun pp => around pp.1 pp.2) pairs.

(** [n] slashes. *)
Fixpoint slashes (n : nat) : string :=
  match n with
  | O => EmptyString
  | S n' => String "/" (slashes n')
  end.

(** The character [c] does not occur in [s]. *)
Fixpoint lacks (c : ascii) (s : string) : bool :=
  match s with
  | EmptyString => true
  | String a s' => negb (Ascii.eqb a c) && lacks c s'
  end.

(** A path pattern as the users of the package write it: literal text and
    named groups [(?P<name>class)]. *)
Inductive segment : Type :=
| Lit (text : string)
| Group (name class : string).

Fixpoint render (segs : list segment) : string :=
  match segs with
  | [] => EmptyString
  | Lit text :: segs' => text +:+ render segs'
  | Group name class :: segs' =>
      "(?P<" +:+ name +:+ ">" +:+ class +:+ ")" +:+ render segs'
  end.

(** The literal text holds none of [(], [<] and [>]; the name of a group is
    not empty and holds none of [<] and [>]; its class is not empty and
    holds none of [)], [<] and [>]. *)
Definition well_formed (seg : segment) : bool :=
  match seg with
  | Lit text => lacks "(" text && lacks "<" text && lacks ">" text
  | Group name class =>
      (0 <? String.length name)%nat && lacks "<" name && lacks ">" name
      && (0 <? String.length class)%nat && lacks ")" class && lacks "<" class
      && lacks ">" class
  end.

Fixpoint group_names (segs : list segment) : list string :=
  match segs with
  | [] => []
  | Lit _ :: segs' => group_names segs'
  | Group name _ :: segs' => name :: group_names segs'
  end.

(** The pattern with its groups replaced by the arguments, from left to
    right. *)
Fixpoint fill (segs : list segment) (args : list string) : string :=
  match segs with
  | [] => EmptyString
  | Lit text :: segs' => text +:+ fill segs' args
  | Group _ _ :: segs' =>
      match args with
      | arg :: args' => arg +:+ fill segs' args'
      | [] => fill segs' []
      end
  end.

(** No [>] occurs in [s] before the first [<]. *)
Fixpoint gt_guarded (s : string) : bool :=
  match s with
  | EmptyString => true
  | String a s' =>
      if Ascii.eqb a "<" then true
      else if Ascii.eqb a ">" then false
      else gt_guarded s'
  end.

(** No [<] occurs among the first [k] characters of [s]. *)
Fixpoint lt_free (k : nat) (s : string) : bool :=
  match k, s with
  | S k', String a s' => negb (Ascii.eqb a "<") && lt_free k' s'
  | _, _ => true
  end.

(** The values bound to [name] by the groups of a match, in order. *)
Definition values_of (name : string) (names values : list string) : list string :=
  (filter (fun nv => nv.1 = name) (zip names values)).*2.

(** * Properties *)

(** ** Slices *)

Lemma slice_index_Returned {A} (xs : list A) (i : Z) (x : A) :
  slice_index xs i = Returned x <->
  0 <= i < Z.of_nat (length xs) /\ nth_error xs (Z.to_nat i) = Some x.
Proof.
  unfold slice_index.
  destruct (Z.leb_spec 0 i), (Z.ltb_spec i (Z.of_nat (length xs))); cbn;
    try (split; [discriminate | lia]).
  destruct (nth_error xs (Z.to_nat i)) as [y|] eqn:Hn.
  - split; [intros [= ->]|intros [_ [= ->]]]; auto.
  - split; [discriminate|intros [_ [=]]].
Qed.

Lemma slice_index_Panicked {A} (xs : list A) (i : Z) (v : panic_value) :
  slice_index xs i = Panicked v <->
  ~ 0 <= i < Z.of_nat (length xs) /\ v = PanicIndex i (Z.of_nat (length xs)).
Proof.
  unfold slice_index.
  destruct (Z.leb_spec 0 i), (Z.ltb_spec i (Z.of_nat (length xs))); cbn;
    try (split; [intros [= <-]; split; [lia|reflexivity] | intros [_ ->]; reflexivity]).
  destruct (nth_error xs (Z.to_nat i)) as [y|] eqn:Hn.
  - split; [discriminate|lia].
  - apply nth_error_None in Hn. lia.
Qed.

Lemma slice_index_middle {A} (front back : list A) (x : A) :
  slice_index (front ++ x :: back) (Z.of_nat (length front)) = Returned x.
Proof.
  apply slice_index_Returned. rewrite length_app, Nat2Z.id. cbn [length].
  split; [lia|]. rewrite nth_error_app2 by lia. now rewrite Nat.sub_diag.
Qed.

(** ** Strings *)

Lemma app_String (c : ascii) (a b : string) : String c a +:+ b = String c (a +:+ b).
Proof. reflexivity. Qed.

Lemma app_Empty (b : string) : EmptyString +:+ b = b.
Proof. reflexivity. Qed.

Ltac sapp := rewrite ?app_String, ?app_Empty in *.

Lemma string_app_length (a b : string) :
  String.length (a +:+ b) = (String.length a + String.length b)%nat.
Proof. induction a as [|c a IH]; sapp; simpl; [reflexivity | now rewrite IH]. Qed.

Lemma string_app_assoc (a b c : string) : (a +:+ b) +:+ c = a +:+ (b +:+ c).
Proof. induction a as [|x a IH]; sapp; [reflexivity | now rewrite IH]. Qed.

Lemma string_app_inv_head (a b c : string) : a +:+ b = a +:+ c -> b = c.
Proof. induction a as [|x a IH]; sapp; intros H; [exact H | injection H; auto]. Qed.

(** Two decompositions of one string with left parts of the same length
    coincide. *)
Lemma string_app_inj_length (p p' r r' : string) :
  String.length p = String.length p' -> p +:+ r = p' +:+ r' -> p = p' /\ r = r'.
Proof.
  revert p'. induction p as [|x p IH]; intros [|x' p'] Hlen H; sapp; simpl in *;
    try discriminate.
  - split; [reflexivity | exact H].
  - injection H as -> H. injection Hlen as Hlen.
    destruct (IH p' Hlen H) as [-> ->]. split; reflexivity.
Qed.

Lemma HasPrefix_app (sep rest : string) : HasPrefix (sep +:+ rest) sep = true.
Proof.
  induction sep as [|c sep IH]; sapp; simpl; [reflexivity|].
  now rewrite Ascii.eqb_refl.
Qed.

Lemma string_drop_app (sep rest : string) :
  string_drop (String.length sep) (sep +:+ rest) = rest.
Proof. induction sep as [|c sep IH]; sapp; simpl; auto. Qed.

Lemma HasPrefix_true (s sep : string) :
  HasPrefix s sep = true -> s = sep +:+ string_drop (String.length sep) s.
Proof.
  revert s. induction sep as [|c sep IH]; intros s H; sapp; simpl in *; [reflexivity|].
  destruct s as [|a s]; [discriminate|].
  destruct (Ascii.eqb_spec a c) as [->|]; [|discriminate].
  f_equal. now apply IH.
Qed.

Lemma Cut_unfold (s sep : string) :
  Cut s sep =
  if HasPrefix s sep then Some (EmptyString, string_drop (String.length sep) s)
  else match s with
       | EmptyString => None
       | String c s' =>
           match Cut s' sep with
           | Some (before, after) => Some (String c before, after)
           | None => None
           end
       end.
Proof. destruct s; reflexivity. Qed.

(** [Cut] returns the two sides of an instance of the separator. *)
Lemma Cut_Some (s sep before after : string) :
  Cut s sep = Some (before, after) -> s = before +:+ sep +:+ after.
Proof.
  revert before. induction s as [|c s IH]; intros before H;
    rewrite Cut_unfold in H.
  - destruct (HasPrefix "" sep) eqn:Hp; [|discriminate].
    injection H as <- <-. now apply HasPrefix_true.
  - destruct (HasPrefix (String c s) sep) eqn:Hp.
    + injection H as <- <-. now apply HasPrefix_true.
    + destruct (Cut s sep) as [[b a]|] eqn:Hc; [|discriminate].
      injection H as <- <-. sapp. f_equal. now apply IH.
Qed.

(** [Cut] finds an instance of the separator whenever there is one. *)
Lemma Cut_None (s sep : string) :
  Cut s sep = None -> forall a b, s <> a +:+ sep +:+ b.
Proof.
  intros H a. revert s H. induction a as [|c a IH]; intros s H b ->;
    rewrite Cut_unfold in H; sapp.
  - rewrite HasPrefix_app in H. discriminate.
  - destruct (HasPrefix (String c (a +:+ sep +:+ b)) sep); [discriminate|].
    destruct (Cut (a +:+ sep +:+ b) sep) as [[? ?]|] eqn:Hc; [discriminate|].
    now apply (IH _ Hc b).
Qed.

(** A change of one character cannot touch both sides of a decomposition. *)
Lemma one_change_one_side (a b p r p' r' : string) (c c' : ascii) :
  a +:+ String c b = p +:+ r ->
  a +:+ String c' b = p' +:+ r' ->
  String.length p = String.length p' ->
  p = p' \/ r = r'.
Proof.
  revert p p'. induction a as [|x a IH]; intros [|y p] [|y' p'] H H' Hlen;
    sapp; simpl in Hlen; try discriminate.
  - now left.
  - right. injection H as _ H. injection H' as _ H'. injection Hlen as Hlen.
    rewrite H in H'. now apply (string_app_inj_length p p' r r').
  - now left.
  - injection H as <- H. injection H' as <- H'. injection Hlen as Hlen.
    destruct (IH p p' H H' Hlen) as [->| ->]; auto.
Qed.

(** ** Hexadecimal output *)

Lemma hex_byte_shape (c : ascii) :
  exists h l, hex_byte c = String h (String l EmptyString)
              /\ h <> "-"%char /\ l <> "-"%char.
Proof.
  destruct c as [[] [] [] [] [] [] [] []];
    (eexists; eexists; split; [vm_compute; reflexivity | split; discriminate]).
Qed.

Lemma unhex_hex_byte (c : ascii) (rest : string) :
  unhex_byte (hex_byte c +:+ rest) = c.
Proof. destruct c as [[] [] [] [] [] [] [] []]; reflexivity. Qed.

Lemma Sprintf_x_app (a b : string) :
  Sprintf_x (a +:+ b) = Sprintf_x a +:+ Sprintf_x b.
Proof.
  induction a as [|c a IH]; sapp; cbn [Sprintf_x]; [reflexivity|].
  now rewrite IH, string_app_assoc.
Qed.

Lemma Sprintf_x_length (b : string) :
  String.length (Sprintf_x b) = (2 * String.length b)%nat.
Proof.
  induction b as [|c b IH]; [reflexivity|]. cbn [Sprintf_x].
  destruct (hex_byte_shape c) as (h & l & -> & _). sapp. simpl. lia.
Qed.

Lemma Sprintf_x_inj (a b : string) : Sprintf_x a = Sprintf_x b -> a = b.
Proof.
  revert b. induction a as [|c a IH]; intros [|d b] H; cbn [Sprintf_x] in H.
  - reflexivity.
  - destruct (hex_byte_shape d) as (h & l & Hd & _). rewrite Hd in H. discriminate.
  - destruct (hex_byte_shape c) as (h & l & Hc & _). rewrite Hc in H. discriminate.
  - assert (c = d) as ->.
    { rewrite <- (unhex_hex_byte c (Sprintf_x a)), H. apply unhex_hex_byte. }
    f_equal. apply IH. now apply string_app_inv_head in H.
Qed.

(** No dash is printed, so the first ["----"] after hexadecimal output is the
    one that follows it. *)
Lemma Cut_after_hex (b rest : string) :
  Cut (Sprintf_x b +:+ "----" +:+ rest) "----" = Some (Sprintf_x b, rest).
Proof.
  induction b as [|c b IH]; cbn [Sprintf_x].
  - reflexivity.
  - destruct (hex_byte_shape c) as (h & l & -> & Hh & Hl). sapp.
    rewrite Cut_unfold. simpl HasPrefix.
    destruct (Ascii.eqb_spec h "-"); [contradiction|].
    rewrite Cut_unfold. simpl HasPrefix.
    destruct (Ascii.eqb_spec l "-"); [contradiction|].
    now rewrite IH.
Qed.

(** ** crypto/sha1 and crypto/hmac: test vectors *)

Example sha1_abc :
  Sprintf_x (SHA1.sum "abc") = "a9993e364706816aba3e25717850c26c9cd0d89d".
Proof. vm_compute. reflexivity. Qed.

Example sha1_two_blocks :
  Sprintf_x (SHA1.sum "abcdbcdecdefdefgefghfghighijhijkijkljklmklmnlmnomnopnopq")
  = "84983e441c3bd26ebaae4aa1f95129e5e54670f1".
Proof. vm_compute. reflexivity. Qed.

(** RFC 2202, test cases 2 and 6 (a key longer than one block). *)
Example hmac_sha1_rfc2202_2 :
  Sprintf_x (HMAC.mac "Jefe" "what do ya want for nothing?")
  = "effcdf6ae5eb2fa2d27416d5f184df9c259a7c79".
Proof. vm_compute. reflexivity. Qed.

Example hmac_sha1_rfc2202_6 :
  Sprintf_x (HMAC.mac (Bytes.pack (repeat 170 80))
               "Test Using Larger Than Block-Size Key - Hash Key First")
  = "aa4ae5e15272d00e95705637ce8a3b55ed402112".
Proof. vm_compute. reflexivity. Qed.

(** ** utils.go: the signed string *)

Lemma SplitN_2 (s sep : string) :
  SplitN s sep 2 =
  match Cut s sep with
  | Some (before, after) => [before; after]
  | None => [s]
  end.
Proof. unfold SplitN. destruct (Cut s sep) as [[? ?]|]; reflexivity. Qed.

(** What [SignString] computes: the value in hexadecimal, the HMAC of the
    empty message in hexadecimal, the separator, the value. *)
Lemma SignString_eq (value key : string) :
  SignString value key =
  Sprintf_x value +:+ Sprintf_x (HMAC.mac key "") +:+ "----" +:+ value.
Proof.
  unfold SignString, HMAC.Sum, HMAC.New. cbn [HMAC.key HMAC.written].
  now rewrite Sprintf_x_app, string_app_assoc.
Qed.

Lemma SignString_length (value key : string) :
  String.length (SignString value key) =
  (3 * String.length value + (String.length (Sprintf_x (HMAC.mac key "")) + 4))%nat.
Proof.
  rewrite SignString_eq, !string_app_length, Sprintf_x_length. simpl. lia.
Qed.

(** [ValidateSignedString] in terms of the first instance of the separator. *)
Lemma ValidateSignedString_eq (value key : string) :
  ValidateSignedString value key =
  match Cut value "----" with
  | Some (p0, p1) =>
      if String.eqb p0 (Sprintf_x (HMAC.Sum (HMAC.New key) p1))
      then Returned (p1, None)
      else Returned (EmptyString, Some tampered)
  | None => Panicked (PanicIndex 1 1)
  end.
Proof.
  unfold ValidateSignedString. rewrite SplitN_2.
  destruct (Cut value "----") as [[? ?]|]; reflexivity.
Qed.

Lemma ValidateSignedString_sign (value key : string) :
  ValidateSignedString (SignString value key) key = Returned (value, None).
Proof.
  rewrite ValidateSignedString_eq. unfold SignString.
  now rewrite Cut_after_hex, String.eqb_refl.
Qed.

(** Only the output of [SignString] validates. *)
Lemma ValidateSignedString_inv (s key value : string) :
  ValidateSignedString s key = Returned (value, None) -> s = SignString value key.
Proof.
  rewrite ValidateSignedString_eq.
  destruct (Cut s "----") as [[before after]|] eqn:Hcut; [|discriminate].
  destruct (String.eqb_spec before (Sprintf_x (HMAC.Sum (HMAC.New key) after)))
    as [->|]; [|discriminate].
  intros [= <-]. now apply Cut_Some in Hcut.
Qed.

Lemma one_char_changed_length (s s' : string) :
  one_char_changed s s' -> String.length s = String.length s'.
Proof.
  intros (a & b & c & c' & -> & -> & _). now rewrite !string_app_length.
Qed.

Lemma one_char_changed_neq (s s' : string) : one_char_changed s s' -> s <> s'.
Proof.
  intros (a & b & c & c' & -> & -> & Hc) H.
  apply string_app_inv_head in H. congruence.
Qed.

(** C1.  On the value ["ABCDE"] and the key ["secret"] [SignString] prints
    the value itself in hexadecimal followed by the HMAC-SHA1 of the empty
    message; this is not the HMAC-SHA1 of the value that the specification
    describes. *)
Theorem SignString_does_not_hash_value :
  SignString "ABCDE" "secret" =
    "4142434445" +:+ Sprintf_x (HMAC.mac "secret" "") +:+ "----ABCDE"
  /\ Sprintf_x (HMAC.mac "secret" "") = "25af6174a0fcecc4d346680a72b7ce644b9a88e8"
  /\ SignString_spec "ABCDE" "secret" =
       "b4c8085c013fff40d170693994d7e09960d041f6----ABCDE"
  /\ SignString "ABCDE" "secret" <> SignString_spec "ABCDE" "secret".
Proof.
  split; [|split; [|split]]; try (vm_compute; reflexivity).
  vm_compute. discriminate.
Qed.

(** C5.  Validation of a signed string with the key it was signed with gives
    the value back without error; a signed string in which one character was
    changed does not validate: the call returns the tamper error, or, when
    the change has removed the separator, panics. *)
Theorem sign_validate_round_trip (id secret : string) :
  ValidateSignedString (SignString id secret) secret = Returned (id, None)
  /\ forall s' : string,
       one_char_changed (SignString id secret) s' ->
       validation_fails (ValidateSignedString s' secret).
Proof.
  split; [apply ValidateSignedString_sign|].
  intros s' Hch. unfold validation_fails.
  destruct (ValidateSignedString s' secret) as [[x [e|]]|v] eqn:Hv.
  - left. rewrite ValidateSignedString_eq in Hv.
    destruct (Cut s' "----") as [[p0 p1]|]; [|discriminate].
    destruct (String.eqb p0 _); [discriminate|now symmetry].
  - exfalso. apply ValidateSignedString_inv in Hv. subst s'.
    assert (Hlen : String.length id = String.length x).
    { apply one_char_changed_length in Hch. rewrite !SignString_length in Hch. lia. }
    apply (one_char_changed_neq _ _ Hch).
    destruct Hch as (a & b & c & c' & H & H' & _).
    rewrite SignString_eq in H, H'.
    assert (id = x) as ->; [|reflexivity].
    destruct (one_change_one_side a b _ _ _ _ c c' (eq_sym H) (eq_sym H')) as [Hp|Hr].
    + rewrite !Sprintf_x_length. lia.
    + now apply Sprintf_x_inj.
    + rewrite <- !string_app_assoc in Hr.
      apply string_app_inj_length in Hr; [tauto|].
      rewrite !string_app_length. reflexivity.
  - right. rewrite ValidateSignedString_eq in Hv.
    destruct (Cut s' "----") as [[p0 p1]|]; [|now symmetry].
    destruct (String.eqb p0 _); discriminate.
Qed.

Lemma sign_validate_round_trip_witness :
  one_char_changed (SignString "ABCDE" "secret")
    ("514243444525af6174a0fcecc4d346680a72b7ce644b9a88e8----ABCDE")
  /\ validation_fails
       (ValidateSignedString
          "514243444525af6174a0fcecc4d346680a72b7ce644b9a88e8----ABCDE" "secret").
Proof.
  assert (H : one_char_changed (SignString "ABCDE" "secret")
                "514243444525af6174a0fcecc4d346680a72b7ce644b9a88e8----ABCDE").
  { exists "", "14243444525af6174a0fcecc4d346680a72b7ce644b9a88e8----ABCDE",
      "4"%char, "5"%char.
    split; [vm_compute; reflexivity | split; [reflexivity | discriminate]]. }
  split; [exact H|].
  exact (proj2 (sign_validate_round_trip "ABCDE" "secret") _ H).
Defined.

(** C10.  On a string without the separator [ValidateSignedString] does not
    return: [parts] has one element and [parts[1]] panics with an index out
    of range. *)
Theorem ValidateSignedString_panics (value key : string) :
  Contains value "----" = false ->
  ValidateSignedString value key = Panicked (PanicIndex 1 1).
Proof.
  unfold Contains. rewrite ValidateSignedString_eq.
  destruct (Cut value "----") as [[? ?]|]; [discriminate|]. reflexivity.
Qed.

Lemma ValidateSignedString_panics_witness :
  Contains "" "----" = false
  /\ ValidateSignedString "" "secret" = Panicked (PanicIndex 1 1).
Proof.
  split; [reflexivity|].
  apply (ValidateSignedString_panics "" "secret"). reflexivity.
Defined.

(** [Contains] is false exactly on the strings without an instance of the
    separator. *)
Lemma Contains_false (s sep : string) :
  Contains s sep = false <-> forall a b, s <> a +:+ sep +:+ b.
Proof.
  unfold Contains. split.
  - destruct (Cut s sep) as [[? ?]|] eqn:Hc; [discriminate|].
    intros _. now apply Cut_None.
  - intros H. destruct (Cut s sep) as [[before after]|] eqn:Hc; [|reflexivity].
    apply Cut_Some in Hc. now apply H in Hc.
Qed.

(** The session middleware hands the value of the cookie to
    [ValidateSignedString] as it is: a cookie without the separator makes
    the request panic with the index error, not with the tamper error. *)
Lemma session_cookie_without_separator (signedString secret : string) :
  Contains signedString "----" = false ->
  session_id_of_cookie (Some signedString) secret = Panicked (PanicIndex 1 1).
Proof.
  unfold Contains, session_id_of_cookie. rewrite ValidateSignedString_eq.
  destruct (Cut signedString "----") as [[? ?]|]; [discriminate|]. reflexivity.
Qed.

(** ** session.go: flash messages *)

Lemma session_flash_Set (sess : Session) (m : gmap string (list string)) :
  session_flash (Session_Set sess FlashKey (VFlash m)) = Returned m.
Proof. unfold session_flash, Session_Set. cbn. now rewrite lookup_insert_eq. Qed.

Lemma AddFlash_eq (sess : Session) (m : gmap string (list string))
    (category message : string) :
  session_flash sess = Returned m ->
  AddFlash sess category message =
  Returned (Session_Set sess FlashKey
              (VFlash (<[category := default [] (m !! category) ++ [message]]> m))).
Proof.
  intros H. unfold AddFlash. rewrite H. cbn.
  destruct (m !! category) as [l|] eqn:Hl; cbn.
  - now rewrite (lookup_total_correct _ _ _ Hl).
  - now rewrite lookup_total_insert_eq, insert_insert_eq.
Qed.

Lemma Flashes_eq (sess : Session) (m : gmap string (list string)) :
  session_flash sess = Returned m ->
  Flashes sess = Returned (m, Session_Set sess FlashKey (VFlash ∅)).
Proof. intros H. unfold Flashes. now rewrite H. Qed.

(** C9, as stated, fails on a session that already holds a flash message:
    the first [Flashes()] returns that message too. *)
Lemma flash_scenario_counterexample :
  flash_scenario session_with_flash
    = Returned ({["info" := ["x"; "a"; "b"]]}, ∅)
  /\ flash_scenario session_with_flash
    <> Returned ({["info" := ["a"; "b"]]}, ∅).
Proof.
  assert (H : flash_scenario session_with_flash
              = Returned ({["info" := ["x"; "a"; "b"]]}, ∅)).
  { vm_compute. reflexivity. }
  split; [exact H|]. rewrite H. intros E.
  assert (E' := f_equal (fun r => match r with
                                  | Returned (m, _) => m !! "info"
                                  | Panicked _ => None
                                  end) E).
  vm_compute in E'. discriminate.
Qed.

(** C9, amended.  On a session whose flash map is empty, [AddFlash("info",
    "a")], [AddFlash("info", "b")], [Flashes()], [Flashes()] return first
    exactly [{"info": ["a", "b"]}] and then the empty map. *)
Theorem flash_scenario_fresh (sess : Session) :
  session_flash sess = Returned ∅ ->
  flash_scenario sess = Returned ({["info" := ["a"; "b"]]}, ∅).
Proof.
  intros H. unfold flash_scenario.
  rewrite (AddFlash_eq _ _ _ _ H). cbn [mbind go_result_bind go_bind].
  rewrite (AddFlash_eq _ _ _ _ (session_flash_Set _ _)).
  cbn [mbind go_result_bind go_bind].
  rewrite (Flashes_eq _ _ (session_flash_Set _ _)).
  cbn [mbind go_result_bind go_bind fst snd].
  rewrite (Flashes_eq _ _ (session_flash_Set _ _)).
  cbn [mbind go_result_bind go_bind fst snd].
  rewrite lookup_empty. cbn.
  rewrite lookup_insert_eq, insert_insert_eq. reflexivity.
Qed.

Lemma flash_scenario_fresh_witness :
  session_flash (NewSession "s1" 0) = Returned ∅
  /\ flash_scenario (NewSession "s1" 0) = Returned ({["info" := ["a"; "b"]]}, ∅).
Proof.
  assert (H : session_flash (NewSession "s1" 0) = Returned ∅)
    by apply session_flash_Set.
  split; [exact H|]. apply (flash_scenario_fresh (NewSession "s1" 0)). exact H.
Defined.

(** ** session.go: the sweep of the memory store *)

Lemma time_Sub_mono (t t' u : Time) : t <= t' -> time_Sub t u <= time_Sub t' u.
Proof. unfold time_Sub. lia. Qed.

Lemma Gc_delkeys_spec (lifetime : Duration) (now : nat -> Time)
    (entries : list (string * Session)) (i : nat) (acc : list string) (k : string) :
  k ∈ Gc_delkeys lifetime now i entries acc <->
  k ∈ acc \/ exists (j : nat) (v : Session),
               entries !! j = Some (k, v)
               /\ lifetime < time_Sub (now (i + j)%nat) (LastAccessTime v).
Proof.
  revert i acc. induction entries as [|[k' v'] rest IH]; intros i acc; simpl.
  - split; [auto|]. intros [H|(j & v & H & _)]; [exact H|]. discriminate.
  - rewrite IH. split.
    + intros [H|(j & v & Hj & Hlt)].
      * destruct (Z.ltb_spec lifetime (time_Sub (now i) (LastAccessTime v'))); auto.
        apply elem_of_app in H as [H|H]; auto.
        apply list_elem_of_singleton in H as ->.
        right. exists 0%nat, v'. rewrite Nat.add_0_r. auto.
      * right. exists (S j), v. split; [exact Hj|].
        now replace (i + S j)%nat with (S i + j)%nat by lia.
    + intros [H|(j & v & Hj & Hlt)].
      * left. destruct (lifetime <? _); [apply elem_of_app|]; auto.
      * destruct j as [|j]; simpl in Hj.
        -- injection Hj as -> ->. rewrite Nat.add_0_r in Hlt.
           left. apply Z.ltb_lt in Hlt. rewrite Hlt.
           apply elem_of_app. right. now apply list_elem_of_singleton.
        -- right. exists j, v. split; [exact Hj|].
           now replace (S i + j)%nat with (i + S j)%nat by lia.
Qed.

Lemma store_foldl_Delete (keys : list string) (ms : MemorySessionStore) (k : string) :
  store (foldl Store_Delete ms keys) !! k =
  if decide (k ∈ keys) then None else store ms !! k.
Proof.
  revert ms. induction keys as [|key keys IH]; intros ms; simpl.
  - reflexivity.
  - rewrite IH. unfold Store_Delete at 1. cbn [store].
    destruct (decide (k ∈ keys)) as [Hin|Hnin], (decide (k ∈ key :: keys)) as [Hin'|Hnin'];
      try reflexivity.
    + exfalso. apply Hnin'. now right.
    + apply elem_of_cons in Hin' as [->|?]; [|contradiction].
      apply lookup_delete_eq.
    + apply lookup_delete_ne. intros ->. apply Hnin'. now left.
Qed.

(** C8.  One sweep of [Gc] over a store, whatever the order in which the
    store is visited and for readings of the clock between [t0] and [t1]:
    a session whose last access at [t0], the start of the sweep, is older
    than the lifetime is absent afterwards, and a session whose last access
    at [t1], the end of the sweep, is within the lifetime is still there,
    unchanged. *)
Theorem Gc_sweep (ms : MemorySessionStore) (entries : list (string * Session))
    (now : nat -> Time) (t0 t1 : Time) (k : string) (s : Session) :
  range_order (store ms) entries ->
  (forall i, t0 <= now i <= t1) ->
  store ms !! k = Some s ->
  (LifeTime ms < time_Sub t0 (LastAccessTime s) ->
     store (Gc ms entries now) !! k = None)
  /\ (time_Sub t1 (LastAccessTime s) <= LifeTime ms ->
     store (Gc ms entries now) !! k = Some s).
Proof.
  intros Hperm Hnow Hk. unfold Gc. rewrite store_foldl_Delete.
  assert (Hin : (k, s) ∈ entries).
  { unfold range_order in Hperm. rewrite Hperm. now apply elem_of_map_to_list. }
  split; intros Hage.
  - rewrite decide_True; [reflexivity|].
    apply Gc_delkeys_spec. right.
    apply list_elem_of_lookup_1 in Hin as [j Hj]. exists j, s. split; [exact Hj|].
    pose proof (time_Sub_mono t0 (now (0 + j)%nat) (LastAccessTime s)
                  (proj1 (Hnow _))). lia.
  - rewrite decide_False; [exact Hk|].
    intros [H|(j & v & Hj & Hlt)]%Gc_delkeys_spec; [inversion H|].
    assert (v = s) as ->.
    { apply list_elem_of_lookup_2 in Hj. unfold range_order in Hperm.
      rewrite Hperm in Hj. apply elem_of_map_to_list in Hj. congruence. }
    pose proof (time_Sub_mono (now (0 + j)%nat) t1 (LastAccessTime s)
                  (proj2 (Hnow _))). lia.
Qed.

Lemma Gc_sweep_witness :
  range_order (store two_sessions) (map_to_list (store two_sessions))
  /\ (forall i : nat, 45 * minute <= (fun _ : nat => 45 * minute) i <= 45 * minute)
  /\ store two_sessions !! "old" = Some (NewSession "old" 0)
  /\ store two_sessions !! "new" = Some (NewSession "new" (40 * minute))
  /\ LifeTime two_sessions < time_Sub (45 * minute) (LastAccessTime (NewSession "old" 0))
  /\ time_Sub (45 * minute) (LastAccessTime (NewSession "new" (40 * minute)))
       <= LifeTime two_sessions
  /\ store (Gc two_sessions (map_to_list (store two_sessions))
              (fun _ : nat => 45 * minute)) !! "old" = None
  /\ store (Gc two_sessions (map_to_list (store two_sessions))
              (fun _ : nat => 45 * minute)) !! "new"
     = Some (NewSession "new" (40 * minute)).
Proof.
  assert (H1 : range_order (store two_sessions) (map_to_list (store two_sessions)))
    by (unfold range_order; reflexivity).
  assert (H2 : forall i : nat,
             45 * minute <= (fun _ : nat => 45 * minute) i <= 45 * minute)
    by (intros i; lia).
  assert (H3 : store two_sessions !! "old" = Some (NewSession "old" 0))
    by (vm_compute; reflexivity).
  assert (H4 : store two_sessions !! "new" = Some (NewSession "new" (40 * minute)))
    by (vm_compute; reflexivity).
  assert (H5 : LifeTime two_sessions
               < time_Sub (45 * minute) (LastAccessTime (NewSession "old" 0)))
    by (vm_compute; reflexivity).
  assert (H6 : time_Sub (45 * minute) (LastAccessTime (NewSession "new" (40 * minute)))
               <= LifeTime two_sessions)
    by (vm_compute; discriminate).
  repeat (split; [assumption|]). split.
  - exact (proj1 (Gc_sweep two_sessions (map_to_list (store two_sessions))
                    (fun _ : nat => 45 * minute) (45 * minute) (45 * minute)
                    "old" (NewSession "old" 0) H1 H2 H3) H5).
  - exact (proj2 (Gc_sweep two_sessions (map_to_list (store two_sessions))
                    (fun _ : nat => 45 * minute) (45 * minute) (45 * minute)
                    "new" (NewSession "new" (40 * minute)) H1 H2 H4) H6).
Defined.

(** ** app.go: execution of a chain *)

Lemma exec_unfold (fuel : nat) (p : prog) (st : request_state) :
  exec fuel p st =
  match p with
  | Ret => (Done, st)
  | Write b k => exec fuel k (set_w st (rw_Write (w st) b))
  | WriteHeader s k => exec fuel k (set_w st (rw_WriteHeader (w st) s))
  | Inspect k => exec fuel (k (w st)) st
  | Panic v => (Panicking v, st)
  | DoNext k =>
      match advance st with
      | (st', Panicked v) => (Panicking v, st')
      | (st', Returned md) =>
          match fuel with
          | O => (OutOfFuel, st')
          | S fuel' =>
              match exec fuel' md st' with
              | (Done, st'') => exec fuel k st''
              | other => other
              end
          end
      end
  end.
Proof. destruct fuel, p; reflexivity. Qed.

Lemma remaining_set_w (st : request_state) (w' : responseWriter) :
  remaining (set_w st w') = remaining st.
Proof. reflexivity. Qed.

Lemma advance_Returned (st st' : request_state) (md : Middleware) :
  advance st = (st', Returned md) ->
  S (remaining st') = remaining st.
Proof.
  unfold advance, remaining.
  destruct (ctx_MiddlewareChain (ctx st)) as [mc|]; [|discriminate].
  cbn [middlewares sp]. intros [= <- H].
  apply slice_index_Returned in H as [H _].
  unfold set_chain. cbn [ctx ctx_MiddlewareChain middlewares sp]. lia.
Qed.

Lemma advance_Panicked (st st' : request_state) (v : panic_value) :
  advance st = (st', Panicked v) -> (remaining st' <= remaining st)%nat.
Proof.
  unfold advance, remaining.
  destruct (ctx_MiddlewareChain (ctx st)) as [mc|] eqn:E.
  - intros [= <- _]. unfold set_chain. cbn [ctx ctx_MiddlewareChain middlewares sp]. lia.
  - intros [= <- _]. rewrite E. lia.
Qed.

(** Execution never moves the cursor back. *)
Lemma exec_remaining (fuel : nat) (p : prog) (st st' : request_state) (o : outcome) :
  exec fuel p st = (o, st') -> (remaining st' <= remaining st)%nat.
Proof.
  revert p st st' o. induction fuel as [|fuel IHf];
    (induction p as [|b k IHk|s k IHk|k IHk|k IHk|v]; intros st st' o;
     rewrite exec_unfold;
     [ intros [= _ <-]; lia
     | intros H; apply IHk in H; now rewrite remaining_set_w in H
     | intros H; apply IHk in H; now rewrite remaining_set_w in H
     | intros H; now apply IHk in H
     | destruct (advance st) as [st1 [md|v]] eqn:Ha
     | intros [= _ <-]; lia ]).
  - intros [= _ <-]. apply advance_Returned in Ha. lia.
  - intros [= _ <-]. apply advance_Panicked in Ha. lia.
  - apply advance_Returned in Ha.
    destruct (exec fuel md st1) as [[|v|] st2] eqn:He; apply IHf in He.
    + intros H. apply IHk in H. lia.
    + intros [= _ <-]. lia.
    + intros [= _ <-]. lia.
  - intros [= _ <-]. apply advance_Panicked in Ha. lia.
Qed.

(** The fuel [remaining st] is enough: execution does not run out of it. *)
Lemma exec_enough (fuel : nat) (p : prog) (st : request_state) :
  (remaining st <= fuel)%nat -> (exec fuel p st).1 <> OutOfFuel.
Proof.
  revert p st. induction fuel as [|fuel IHf];
    (induction p as [|b k IHk|s k IHk|k IHk|k IHk|v]; intros st Hf;
     rewrite exec_unfold;
     [ discriminate
     | apply IHk; now rewrite remaining_set_w
     | apply IHk; now rewrite remaining_set_w
     | now apply IHk
     | destruct (advance st) as [st1 [md|v]] eqn:Ha; [|discriminate]
     | discriminate ]).
  - apply advance_Returned in Ha. lia.
  - pose proof (advance_Returned _ _ _ Ha) as Hr.
    destruct (exec fuel md st1) as [[|v|] st2] eqn:He.
    + apply IHk. apply exec_remaining in He. lia.
    + discriminate.
    + exfalso. apply (IHf md st1); [lia|]. now rewrite He.
Qed.

(** More fuel does not change a result. *)
Lemma exec_more_fuel (fuel fuel' : nat) (p : prog) (st st' : request_state) (o : outcome) :
  exec fuel p st = (o, st') -> o <> OutOfFuel -> (fuel <= fuel')%nat ->
  exec fuel' p st = (o, st').
Proof.
  revert fuel' p st st' o. induction fuel as [|fuel IHf]; intros fuel';
    (induction p as [|b k IHk|s k IHk|k IHk|k IHk|v]; intros st st' o;
     rewrite (exec_unfold fuel'), exec_unfold;
     [ auto | apply IHk | apply IHk | apply IHk
     | destruct (advance st) as [st1 [md|v]] eqn:Ha; [|auto]
     | auto ]).
  - intros [= <- _] H. contradiction.
  - destruct fuel' as [|fuel']; [lia|].
    destruct (exec fuel md st1) as [[|v|] st2] eqn:He.
    + intros H Ho Hle. rewrite (IHf fuel' md st1 st2 Done He) by (discriminate || lia).
      now apply IHk.
    + intros [= <- <-] _ Hle.
      now rewrite (IHf fuel' md st1 st2 (Panicking v) He) by (discriminate || lia).
    + intros [= <- _] H. contradiction.
Qed.

(** [run] is execution with any sufficient amount of fuel, and it never
    runs out of fuel. *)
Lemma run_exec (fuel : nat) (p : prog) (st : request_state) :
  (remaining st <= fuel)%nat -> exec fuel p st = run p st.
Proof.
  intros Hf. unfold run.
  destruct (exec (remaining st) p st) as [o st'] eqn:He.
  apply (exec_more_fuel _ fuel _ _ _ _ He); [|exact Hf].
  intros ->. apply (exec_enough (remaining st) p st (le_n _)). now rewrite He.
Qed.

Lemma run_total (p : prog) (st : request_state) : (run p st).1 <> OutOfFuel.
Proof. apply exec_enough. lia. Qed.

Lemma run_Ret (st : request_state) : run Ret st = (Done, st).
Proof. unfold run. now rewrite exec_unfold. Qed.

Lemma run_Panic (v : panic_value) (st : request_state) :
  run (Panic v) st = (Panicking v, st).
Proof. unfold run. now rewrite exec_unfold. Qed.

Lemma run_Write (b : string) (k : prog) (st : request_state) :
  run (Write b k) st = run k (set_w st (rw_Write (w st) b)).
Proof. unfold run. now rewrite exec_unfold. Qed.

Lemma run_WriteHeader (s : Z) (k : prog) (st : request_state) :
  run (WriteHeader s k) st = run k (set_w st (rw_WriteHeader (w st) s)).
Proof. unfold run. now rewrite exec_unfold. Qed.

Lemma run_Inspect (k : responseWriter -> prog) (st : request_state) :
  run (Inspect k) st = run (k (w st)) st.
Proof. unfold run. now rewrite exec_unfold. Qed.

(** [DoNext]: the cursor moves, the middleware under it runs, and when it
    has returned the caller goes on. *)
Lemma run_DoNext (k : prog) (st : request_state) :
  run (DoNext k) st =
  match advance st with
  | (st', Panicked v) => (Panicking v, st')
  | (st', Returned md) =>
      match run md st' with
      | (Done, st'') => run k st''
      | other => other
      end
  end.
Proof.
  unfold run at 1. rewrite exec_unfold.
  destruct (advance st) as [st1 [md|v]] eqn:Ha; [|reflexivity].
  rewrite <- (advance_Returned _ _ _ Ha).
  change (exec (remaining st1) md st1) with (run md st1).
  destruct (run md st1) as [[|v|] st2] eqn:He; try reflexivity.
  apply run_exec. apply exec_remaining in He. lia.
Qed.

Lemma advance_at (st : request_state) (mds : list Middleware) (i : Z) :
  cursor_at st mds i ->
  advance st = (set_chain st (Some (mkMiddlewareChain mds (i + 1))),
                slice_index mds (i + 1)).
Proof. unfold cursor_at, advance. now intros ->. Qed.

Lemma Chunks_WriteHeader (t : transport) (code : Z) :
  Chunks (transport_WriteHeader t code) = Chunks t.
Proof. unfold transport_WriteHeader. now destruct (Code t). Qed.

Lemma Chunks_rw_WriteHeader (w : responseWriter) (s : Z) :
  Chunks (ResponseWriter (rw_WriteHeader w s)) = Chunks (ResponseWriter w).
Proof. apply Chunks_WriteHeader. Qed.

Lemma Chunks_rw_Write (w : responseWriter) (b : string) :
  Chunks (ResponseWriter (rw_Write w b)) = Chunks (ResponseWriter w) ++ [b].
Proof.
  unfold rw_Write, transport_Write. cbn [ResponseWriter Chunks].
  rewrite Chunks_WriteHeader.
  destruct (contentLength w =? 0); [|reflexivity]. now rewrite Chunks_rw_WriteHeader.
Qed.

Lemma written_rw_Write (st : request_state) (b : string) :
  written (set_w st (rw_Write (w st) b)) = written st ++ [b].
Proof. apply Chunks_rw_Write. Qed.

(** ** app.go: the order of a chain (C3) *)

(** The continuation call made in front of a block of [around] middlewares
    that wraps the handler runs the whole block: the chunks before, the
    handler, the chunks after in reverse. *)
Lemma run_around (pairs : list (string * string)) :
  forall (front : list Middleware) (h : string) (st : request_state),
    let mds := front ++ map (fun pp => around pp.1 pp.2) pairs
                 ++ [Write h Ret; NopMiddleware] in
    cursor_at st mds (Z.of_nat (length front) - 1) ->
    exists st' : request_state,
      (forall k, run (DoNext k) st = run k st')
      /\ written st' = written st ++ pairs.*1 ++ [h] ++ rev pairs.*2
      /\ cursor_at st' mds (Z.of_nat (length front + length pairs)).
Proof.
  induction pairs as [|[pre post] rest IH]; intros front h st mds Hc.
  - pose proof (advance_at _ _ _ Hc) as Ha.
    replace (Z.of_nat (length front) - 1 + 1) with (Z.of_nat (length front)) in Ha by lia.
    subst mds. cbn [map app] in *. rewrite slice_index_middle in Ha.
    eexists. split; [|split].
    + intros k. rewrite run_DoNext, Ha, run_Write, run_Ret. reflexivity.
    + now rewrite written_rw_Write.
    + unfold cursor_at. cbn. now rewrite Nat.add_0_r.
  - pose proof (advance_at _ _ _ Hc) as Ha.
    replace (Z.of_nat (length front) - 1 + 1) with (Z.of_nat (length front)) in Ha by lia.
    subst mds. cbn [map fst snd] in *. rewrite <- app_comm_cons in *.
    rewrite slice_index_middle in Ha.
    set (st1 := set_chain st _) in Ha.
    destruct (IH (front ++ [around pre post]) h (set_w st1 (rw_Write (w st1) pre)))
      as (st2 & Hrun & Hw & Hc2).
    { unfold cursor_at, st1. cbn. rewrite <- app_assoc. cbn.
      rewrite length_app. cbn. do 2 f_equal. lia. }
    eexists. split; [|split].
    + intros k. rewrite run_DoNext, Ha. unfold around at 1.
      rewrite run_Write, Hrun, run_Write, run_Ret. reflexivity.
    + rewrite written_rw_Write, Hw, written_rw_Write.
      change (written st1) with (written st). cbn.
      rewrite <- !app_assoc. reflexivity.
    + unfold cursor_at in *. cbn in *. rewrite Hc2, <- app_assoc. cbn.
      rewrite length_app. cbn. do 2 f_equal. lia.
Qed.

(** C3.  Three middlewares that write [preN], yield and write [postN],
    around a handler that writes [h]: serving one request through the
    route's chain returns, and the output is [pre1 pre2 pre3 h post3 post2
    post1], in that order. *)
Theorem chain_runs_in_onion_order (compile : string -> Regexp) (n p m : string)
    (s : bool) (pre1 post1 pre2 post2 pre3 post3 h : string) (st : request_state) :
  exists st' : request_state,
    Route_ServeHTTP
      (NewRoute compile n p m s (Write h Ret)
         [around pre1 post1; around pre2 post2; around pre3 post3]) st
    = (Done, st')
    /\ written st' = written st ++ [pre1; pre2; pre3; h; post3; post2; post1].
Proof.
  unfold Route_ServeHTTP, NewRoute, MiddlewareChain_Copy, NewMiddlewareChain.
  cbn [route_MiddlewareChain middlewares].
  destruct (run_around [(pre1, post1); (pre2, post2); (pre3, post3)] [] h
              (set_chain st (Some (mkMiddlewareChain
                 ([around pre1 post1; around pre2 post2; around pre3 post3]
                    ++ [Write h Ret; NopMiddleware]) (-1)))))
    as (st' & Hrun & Hw & _); [reflexivity|].
  exists st'. split; [now rewrite Hrun, run_Ret | exact Hw].
Qed.

(** ** app.go: the sentinel (C7) *)

Lemma last_sentinel (mws : list Middleware) (handler : Middleware) :
  last (mws ++ [handler; NopMiddleware]) = Some NopMiddleware.
Proof.
  change (mws ++ [handler; NopMiddleware])
    with (mws ++ [handler] ++ [NopMiddleware]).
  rewrite app_assoc. apply last_snoc.
Qed.

(** C7.  The chain [NewRoute] compiles ends with the sentinel, which sits at
    the last index.  A continuation call made with the cursor in front of
    the handler runs the handler with the cursor on the handler; the
    continuation call the handler then makes reads the sentinel, at an index
    inside the list, and does nothing but move the cursor there before the
    handler goes on. *)
Theorem chain_ends_in_sentinel (compile : string -> Regexp) (n p m : string)
    (s : bool) (handler : Middleware) (mws : list Middleware) :
  let mds := middlewares (route_MiddlewareChain (NewRoute compile n p m s handler mws)) in
  let i := Z.of_nat (length mws) in
  last mds = Some NopMiddleware
  /\ i + 1 = Z.of_nat (length mds) - 1
  /\ (forall st : request_state,
        cursor_at st mds (i - 1) ->
        advance st = (set_chain st (Some (mkMiddlewareChain mds i)), Returned handler))
  /\ (forall (st : request_state) (k : prog),
        cursor_at st mds i ->
        advance st = (set_chain st (Some (mkMiddlewareChain mds (i + 1))),
                      Returned NopMiddleware)
        /\ run (DoNext k) st
           = run k (set_chain st (Some (mkMiddlewareChain mds (i + 1))))).
Proof.
  cbn.
  assert (Hs : slice_index (mws ++ [handler; NopMiddleware]) (Z.of_nat (length mws) + 1)
               = Returned NopMiddleware).
  { replace (Z.of_nat (length mws) + 1) with (Z.of_nat (length (mws ++ [handler])))
      by (rewrite length_app; cbn; lia).
    rewrite (app_assoc mws [handler] [NopMiddleware]) at 1.
    apply slice_index_middle. }
  split; [apply last_sentinel|]. split; [rewrite length_app; cbn; lia|]. split.
  - intros st Hc. rewrite (advance_at _ _ _ Hc).
    replace (Z.of_nat (length mws) - 1 + 1) with (Z.of_nat (length mws)) by lia.
    now rewrite slice_index_middle.
  - intros st k Hc.
    pose proof (advance_at _ _ _ Hc) as Ha. rewrite Hs in Ha.
    split; [exact Ha|].
    rewrite run_DoNext, Ha. unfold NopMiddleware. now rewrite run_Ret.
Qed.

Lemma chain_ends_in_sentinel_witness :
  let st := set_chain (initial_state empty_transport 0)
              (Some (mkMiddlewareChain [DoNext (Write "done" Ret); NopMiddleware] 0)) in
  cursor_at st [DoNext (Write "done" Ret); NopMiddleware] 0
  /\ run (DoNext (Write "done" Ret)) st
     = run (Write "done" Ret)
         (set_chain st
            (Some (mkMiddlewareChain [DoNext (Write "done" Ret); NopMiddleware] 1))).
Proof.
  split; [reflexivity|].
  exact (proj2
    (proj2 (proj2 (proj2
       (chain_ends_in_sentinel simple_regexp "page" "/page" "GET" false
          (DoNext (Write "done" Ret)) [])))
       (set_chain (initial_state empty_transport 0)
          (Some (mkMiddlewareChain [DoNext (Write "done" Ret); NopMiddleware] 0)))
       (Write "done" Ret) eq_refl)).
Defined.

(** The chain compiled for a route registered on a mount point: the
    middlewares of the application when the mount point was created, those
    added to the mount point, those of the route, the handler, the
    sentinel. *)
Lemma MountPoint_Route_chain (compile : string -> Regexp) (app : App) (path : string)
    (mount_mws : list Middleware) (n p m : string) (s : bool) (h : Middleware)
    (mws : list Middleware) :
  let mt := MountPoint_Use (App_MountPoint app path) mount_mws in
  (middlewares ∘ route_MiddlewareChain) <$>
    Routes (MountPoint_Route compile mt app n p m s h mws) !! n
  = Some (Middlewares app ++ mount_mws ++ mws ++ [h; NopMiddleware]).
Proof.
  cbn. rewrite lookup_insert_eq. cbn. now rewrite <- !app_assoc.
Qed.

(** ** app.go: what a request never changes *)

Lemma advance_StartedAt (st : request_state) :
  StartedAt (ctx (advance st).1) = StartedAt (ctx st).
Proof. unfold advance. now destruct (ctx_MiddlewareChain (ctx st)). Qed.

Lemma exec_StartedAt (fuel : nat) (p : prog) (st st' : request_state) (o : outcome) :
  exec fuel p st = (o, st') -> StartedAt (ctx st') = StartedAt (ctx st).
Proof.
  revert p st st' o. induction fuel as [|fuel IHf];
    (induction p as [|b k IHk|s k IHk|k IHk|k IHk|v]; intros st st' o;
     rewrite exec_unfold;
     [ now intros [= _ <-]
     | intros H; now apply IHk in H
     | intros H; now apply IHk in H
     | intros H; now apply IHk in H
     | pose proof (advance_StartedAt st) as Hs;
       destruct (advance st) as [st1 [md|v]]; cbn [fst] in Hs
     | now intros [= _ <-] ]).
  - now intros [= _ <-].
  - now intros [= _ <-].
  - destruct (exec fuel md st1) as [[|v|] st2] eqn:He; apply IHf in He.
    + intros H. apply IHk in H. congruence.
    + intros [= _ <-]. congruence.
    + intros [= _ <-]. congruence.
  - now intros [= _ <-].
Qed.

Lemma run_all_StartedAt (ps : list prog) (st st' : request_state) (o : outcome) :
  run_all ps st = (o, st') -> StartedAt (ctx st') = StartedAt (ctx st).
Proof.
  revert st. induction ps as [|p ps IH]; intros st; cbn [run_all].
  - now intros [= _ <-].
  - destruct (run p st) as [[|v|] st1] eqn:He; apply exec_StartedAt in He.
    + intros H. apply IH in H. congruence.
    + intros [= _ <-]. congruence.
    + intros [= _ <-]. congruence.
Qed.

Lemma Hooks_Run_StartedAt (hooks : Hooks) (name : string) (d : HookDirection)
    (st st' : request_state) (o : outcome) :
  Hooks_Run hooks name d st = (o, st') -> StartedAt (ctx st') = StartedAt (ctx st).
Proof. destruct d; apply run_all_StartedAt. Qed.

Lemma run_all_total (ps : list prog) (st : request_state) :
  (run_all ps st).1 <> OutOfFuel.
Proof.
  revert st. induction ps as [|p ps IH]; intros st; cbn [run_all]; [discriminate|].
  pose proof (run_total p st) as Hp.
  destruct (run p st) as [[|v|] st1]; [apply IH | discriminate | contradiction].
Qed.

Lemma Hooks_Run_total (hooks : Hooks) (name : string) (d : HookDirection)
    (st : request_state) :
  (Hooks_Run hooks name d st).1 <> OutOfFuel.
Proof. destruct d; apply run_all_total. Qed.

Lemma bind_params_total (names submatches : list string) (i : Z)
    (params : gmap string (list string)) :
  (bind_params names submatches i params).1 <> OutOfFuel.
Proof.
  revert i params. induction names as [|name names IH]; intros i params;
    cbn [bind_params]; [discriminate|].
  destruct (slice_index submatches (i + 1)); [apply IH | discriminate].
Qed.

Lemma match_routes_total (method path : string) (routes : list Route)
    (params : gmap string (list string)) :
  (match_routes method path routes params).1 <> OutOfFuel.
Proof.
  induction routes as [|route routes IH]; cbn [match_routes]; [discriminate|].
  destruct (negb (method_matches method route)); [exact IH|].
  destruct (pattern_matches path route); [|exact IH].
  pose proof (bind_params_total (PathParamNames route) (Pattern route path) 0 params) as Hb.
  destruct (bind_params _ _ _ _) as [[|v|] params']; [discriminate|discriminate|contradiction].
Qed.

(** The body of [App.ServeHTTP] keeps the starting time of the context and
    either returns or panics. *)
Lemma ServeHTTP_body_spec (app : App) (entries : list (string * Route)) (r : Request)
    (st st' : request_state) (o : outcome) :
  ServeHTTP_body app entries r st = (o, st') ->
  StartedAt (ctx st') = StartedAt (ctx st) /\ o <> OutOfFuel.
Proof.
  unfold ServeHTTP_body, and_then.
  pose proof (Hooks_Run_total (app_Hooks app) "start_request" HookDirectionNormal st) as T1.
  destruct (Hooks_Run _ "start_request" _ st) as [[|v|] st1] eqn:H1;
    apply Hooks_Run_StartedAt in H1;
    [| intros [= <- <-]; split; [congruence|discriminate] | contradiction].
  pose proof (match_routes_total (request_method app r) (URL_Path r) (entries.*2)
                (PathParams (ctx st1))) as T2.
  destruct (match_routes _ _ _ _) as [[|v|] [params [route|]]];
    try contradiction;
    try (intros [= <- <-]; split; [exact H1|discriminate]).
  - pose proof (Hooks_Run_total (app_Hooks app) "start_action" HookDirectionNormal
                  (set_route st1 params (Some route))) as T3.
    destruct (Hooks_Run _ "start_action" _ _) as [[|v|] st2] eqn:H2;
      apply Hooks_Run_StartedAt in H2; cbn in H2;
      [| intros [= <- <-]; split; [congruence|discriminate] | contradiction].
    pose proof (run_total (DoNext Ret)
                  (set_chain st2 (Some (MiddlewareChain_Copy (route_MiddlewareChain route)))))
      as T4.
    unfold Route_ServeHTTP.
    destruct (run (DoNext Ret) _) as [[|v|] st3] eqn:H3;
      apply exec_StartedAt in H3; cbn in H3;
      [| intros [= <- <-]; split; [congruence|discriminate] | contradiction].
    pose proof (Hooks_Run_total (app_Hooks app) "end_action" HookDirectionReverse st3) as T5.
    intros H4. rewrite H4 in T5. apply Hooks_Run_StartedAt in H4.
    split; [congruence|exact T5].
  - pose proof (run_total (OnNotFound app) (set_route st1 params None)) as T3.
    intros H2. rewrite H2 in T3. apply exec_StartedAt in H2. cbn in H2.
    split; [congruence|exact T3].
Qed.

(** ** app.go: panics and cleanup (C4) *)

(** C4.  Whatever way the body of [App.ServeHTTP] ends, [cleanup] records
    the response time and runs the [end_request] hooks in reverse order.
    When the body panics (a hook, a middleware or the handler panicked) and
    the panic handler is the default one with [Debug] off, the panic stops
    there: before the response time and the hooks, status 500 and the fixed
    body are written, once, and the result of [ServeHTTP] is the result of
    the hooks. *)
Theorem panic_recovered_cleanup_runs (report : panic_value -> string) (app : App)
    (entries : list (string * Route)) (r : Request) (ww : transport)
    (t0 t1 : Time) (o : outcome) (st1 : request_state) :
  OnPanic app = DefaultOnPanic report ->
  Debug (Config app) = false ->
  ServeHTTP_body app entries r (initial_state ww t0) = (o, st1) ->
  let end_request st :=
    run_all (rev (app_Hooks app !!! "end_request"))
      (set_ResponseTime st (time_Sub t1 t0)) in
  match o with
  | Done => ServeHTTP app entries r ww t0 t1 = end_request st1
  | Panicking v =>
      let st2 := set_w st1 (rw_Write (rw_WriteHeader (w st1) 500)
                              ("Internal Server Error" +:+ String "010" EmptyString)) in
      ServeHTTP app entries r ww t0 t1 = end_request st2
      /\ written st2 = written st1 ++ ["Internal Server Error" +:+ String "010" EmptyString]
      /\ status (w st2) = 500
  | OutOfFuel => False
  end.
Proof.
  intros Hp Hd Hb end_request.
  destruct (ServeHTTP_body_spec _ _ _ _ _ _ Hb) as [Hs Ho]. cbn in Hs.
  unfold ServeHTTP, cleanup. rewrite Hb.
  destruct o as [|v|]; [| |contradiction].
  - unfold and_then, Hooks_Run, end_request. now rewrite Hs.
  - rewrite Hp. unfold DefaultOnPanic. rewrite Hd.
    unfold http_Error, StatusInternalServerError.
    rewrite run_WriteHeader, run_Write, run_Ret.
    unfold and_then, Hooks_Run, end_request. cbn [ctx set_w w]. rewrite Hs.
    split; [reflexivity|]. split.
    + unfold written. cbn [w set_w].
      now rewrite Chunks_rw_Write, Chunks_rw_WriteHeader.
    + unfold rw_Write, rw_WriteHeader.
      destruct (contentLength _ =? 0); reflexivity.
Qed.

Lemma panic_recovered_cleanup_runs_witness :
  OnPanic panic_app = DefaultOnPanic no_report
  /\ Debug (Config panic_app) = false
  /\ ServeHTTP_body panic_app (map_to_list (Routes panic_app)) get_page1
       (initial_state empty_transport 10)
     = (Panicking (PanicString "panic!"), state_at_panic)
  /\ ServeHTTP panic_app (map_to_list (Routes panic_app)) get_page1
       empty_transport 10 25
     = run_all [Write "hook2" Ret; Write "hook1" Ret]
         (set_ResponseTime
            (set_w state_at_panic
               (rw_Write (rw_WriteHeader (w state_at_panic) 500)
                  ("Internal Server Error" +:+ String "010" EmptyString)))
            15).
Proof.
  assert (Hb : ServeHTTP_body panic_app (map_to_list (Routes panic_app)) get_page1
                 (initial_state empty_transport 10)
               = (Panicking (PanicString "panic!"), state_at_panic))
    by (vm_compute; reflexivity).
  split; [reflexivity|]. split; [reflexivity|]. split; [exact Hb|].
  exact (proj1 (panic_recovered_cleanup_runs no_report panic_app
                  (map_to_list (Routes panic_app)) get_page1 empty_transport 10 25 _ _
                  eq_refl eq_refl Hb)).
Defined.

(** The request of the example ends with status 500, the fixed body and the
    output of the two hooks, last registered first. *)
Lemma panic_app_response :
  let r := ServeHTTP panic_app (map_to_list (Routes panic_app)) get_page1
             empty_transport 10 25 in
  r.1 = Done
  /\ Code (ResponseWriter (w r.2)) = Some 500
  /\ written r.2 = ["Internal Server Error" +:+ String "010" EmptyString; "hook2"; "hook1"]
  /\ ResponseTime (ctx r.2) = 15.
Proof. vm_compute. repeat split; reflexivity. Qed.

(** [App.ServeHTTP] always comes to an end in the model. *)
Lemma ServeHTTP_total (app : App) (entries : list (string * Route)) (r : Request)
    (ww : transport) (t0 t1 : Time) :
  (ServeHTTP app entries r ww t0 t1).1 <> OutOfFuel.
Proof.
  unfold ServeHTTP, cleanup.
  destruct (ServeHTTP_body app entries r (initial_state ww t0)) as [o st1] eqn:Hb.
  apply ServeHTTP_body_spec in Hb as [_ Ho].
  destruct o as [|v|]; [| |contradiction]; unfold and_then.
  - apply Hooks_Run_total.
  - pose proof (run_total (OnPanic app (Config app) v) st1) as Hp.
    destruct (run _ st1) as [[|v'|] st2]; [apply Hooks_Run_total|discriminate|contradiction].
Qed.

(** ** app.go: dispatch (C2) *)

(** The loop over the routes stops at the first route, in the order of the
    visit, whose method and pattern match; the routes after it are not
    looked at. *)
Lemma match_routes_first (method path : string) (routes : list Route)
    (params : gmap string (list string)) :
  match_routes method path routes params =
  match List.find (route_matches method path) routes with
  | None => (Done, (params, None))
  | Some route =>
      match bind_params (PathParamNames route) (Pattern route path) 0 params with
      | (Done, params') => (Done, (params', Some route))
      | (o, params') => (o, (params', None))
      end
  end.
Proof.
  induction routes as [|route routes IH]; cbn [match_routes List.find]; [reflexivity|].
  unfold route_matches at 1.
  destruct (method_matches method route); cbn [negb andb]; [|exact IH].
  destruct (pattern_matches path route); [reflexivity|exact IH].
Qed.

Lemma bind_params_outcome (names submatches : list string) (i : Z)
    (params params' : gmap string (list string)) :
  (bind_params names submatches i params).1 = (bind_params names submatches i params').1.
Proof.
  revert i params params'. induction names as [|name names IH]; intros i params params';
    cbn [bind_params]; [reflexivity|].
  destruct (slice_index submatches (i + 1)); [apply IH|reflexivity].
Qed.

(** [dispatch] is the route [App.ServeHTTP] selects, whatever the context
    holds when the loop starts. *)
Lemma match_routes_dispatch (app : App) (entries : list (string * Route)) (r : Request)
    (params : gmap string (list string)) :
  (match_routes (request_method app r) (URL_Path r) entries.*2 params).2.2
  = dispatch app entries r.
Proof.
  unfold dispatch. rewrite !match_routes_first.
  destruct (List.find _ _) as [route|]; [|reflexivity].
  pose proof (bind_params_outcome (PathParamNames route)
                (Pattern route (URL_Path r)) 0 params ∅) as H.
  destruct (bind_params _ _ _ params) as [[|v|] p1],
           (bind_params _ _ _ ∅) as [[|v'|] p2]; cbn in H; try discriminate; reflexivity.
Qed.

Lemma find_head_filter {A} (f : A -> bool) (l : list A) :
  List.find f l = head (filter (fun x => f x = true) l).
Proof.
  induction l as [|x l IH]; [reflexivity|]. cbn [List.find].
  rewrite filter_cons. destruct (f x) eqn:Hf.
  - now rewrite decide_True.
  - now rewrite decide_False by congruence.
Qed.

Lemma Permutation_short {A} (l1 l2 : list A) :
  l1 ≡ₚ l2 -> (length l1 <= 1)%nat -> l1 = l2.
Proof.
  intros Hp Hl. destruct l1 as [|x [|y l1]]; cbn in Hl; [| |lia].
  - now apply Permutation_nil_l in Hp.
  - now apply Permutation_singleton_l in Hp.
Qed.

(** The route table of [pages_app] can be visited in either order. *)
Lemma two_entries_order {V} (k1 k2 : string) (v1 v2 : V) :
  k1 <> k2 ->
  range_order (<[k2 := v2]> (<[k1 := v1]> (∅ : gmap string V))) [(k1, v1); (k2, v2)]
  /\ range_order (<[k2 := v2]> (<[k1 := v1]> (∅ : gmap string V))) [(k2, v2); (k1, v1)].
Proof.
  intros Hne. unfold range_order.
  assert (H : map_to_list (<[k2 := v2]> (<[k1 := v1]> (∅ : gmap string V)))
              ≡ₚ [(k2, v2); (k1, v1)]).
  { rewrite map_to_list_insert by (rewrite lookup_insert_ne by exact Hne; apply lookup_empty).
    rewrite map_to_list_insert by apply lookup_empty.
    now rewrite map_to_list_empty. }
  split; [|now symmetry]. rewrite H. apply Permutation_swap.
Qed.

(** C2, as stated, fails: the routes of [pages_app] are visited in one of
    two orders, and the request [GET /pages/new] is dispatched to
    [show_page] in one and to [new_page] in the other. *)
Lemma dispatch_order_counterexample :
  range_order (Routes pages_app) [("show_page", show_page); ("new_page", new_page)]
  /\ range_order (Routes pages_app) [("new_page", new_page); ("show_page", show_page)]
  /\ Name <$> dispatch pages_app [("show_page", show_page); ("new_page", new_page)]
                get_pages_new = Some "show_page"
  /\ Name <$> dispatch pages_app [("new_page", new_page); ("show_page", show_page)]
                get_pages_new = Some "new_page".
Proof.
  destruct (two_entries_order "show_page" "new_page" show_page new_page) as [H1 H2];
    [discriminate|].
  split; [exact H1|]. split; [exact H2|].
  split; vm_compute; reflexivity.
Qed.

(** C2, amended.  For one order of visit the route selected is the first
    route in that order whose method matches, whatever the case of the
    letters, and whose pattern matches the path; and when at most one route
    of the table matches the request, every order of visit selects the same
    route. *)
Theorem dispatch_first_match (app : App) (r : Request) :
  let method := request_method app r in
  let path := URL_Path r in
  (forall (entries : list (string * Route)),
     dispatch app entries r =
     match List.find (route_matches method path) entries.*2 with
     | None => None
     | Some route =>
         match bind_params (PathParamNames route) (Pattern route path) 0 ∅ with
         | (Done, _) => Some route
         | _ => None
         end
     end)
  /\ (forall (entries1 entries2 : list (string * Route)),
        range_order (Routes app) entries1 ->
        range_order (Routes app) entries2 ->
        (length (filter (fun route => route_matches method path route = true)
                   (map_to_list (Routes app)).*2) <= 1)%nat ->
        dispatch app entries1 r = dispatch app entries2 r).
Proof.
  intros method path.
  assert (Hd : forall entries,
     dispatch app entries r =
     match List.find (route_matches method path) entries.*2 with
     | None => None
     | Some route =>
         match bind_params (PathParamNames route) (Pattern route path) 0 ∅ with
         | (Done, _) => Some route
         | _ => None
         end
     end).
  { intros entries. unfold dispatch. rewrite match_routes_first.
    fold method path. destruct (List.find _ _) as [route|]; [|reflexivity].
    now destruct (bind_params _ _ _ _) as [[|v|] params']. }
  split; [exact Hd|].
  intros entries1 entries2 H1 H2 Hone. rewrite !Hd.
  assert (Hf : forall entries, range_order (Routes app) entries ->
            List.find (route_matches method path) entries.*2 =
            head (filter (fun route => route_matches method path route = true)
                    (map_to_list (Routes app)).*2)).
  { intros entries He. rewrite find_head_filter. f_equal.
    apply Permutation_short.
    - unfold range_order in He. now rewrite He.
    - unfold range_order in He. now rewrite He. }
  now rewrite (Hf _ H1), (Hf _ H2).
Qed.

Lemma dispatch_first_match_witness :
  range_order (Routes buildurl_app) (map_to_list (Routes buildurl_app))
  /\ range_order (Routes buildurl_app) (reverse (map_to_list (Routes buildurl_app)))
  /\ dispatch buildurl_app (map_to_list (Routes buildurl_app)) (mkRequest "get" "/p1/a/b" "")
     = dispatch buildurl_app (reverse (map_to_list (Routes buildurl_app)))
         (mkRequest "get" "/p1/a/b" "").
Proof.
  assert (H1 : range_order (Routes buildurl_app) (map_to_list (Routes buildurl_app)))
    by (unfold range_order; reflexivity).
  assert (H2 : range_order (Routes buildurl_app)
                 (reverse (map_to_list (Routes buildurl_app))))
    by apply reverse_Permutation.
  split; [exact H1|]. split; [exact H2|].
  apply (proj2 (dispatch_first_match buildurl_app (mkRequest "get" "/p1/a/b" "")) _ _ H1 H2).
  vm_compute. lia.
Defined.

(** ** app.go: BuildUrl (C6) *)

Lemma replace_param_groups_panics (p : string) :
  forall (skip : nat) (args : list string) (counter : Z),
    -1 <= counter < Z.of_nat (length args) ->
    (exists v, replace_param_groups p skip args counter = Panicked v) <->
    Z.of_nat (length args) - (counter + 1) < Z.of_nat (count_param_groups p skip).
Proof.
  induction p as [|c p IH]; intros skip args counter Hc;
    cbn [replace_param_groups count_param_groups].
  - split; [intros [v [=]] | lia].
  - destruct skip as [|skip]; [|now apply IH].
    destruct (match_param_group (String c p)) as [rest|].
    + destruct (slice_index args (counter + 1)) as [arg|v] eqn:Hs; cbn.
      * apply slice_index_Returned in Hs as [Hs _].
        specialize (IH (String.length p - String.length rest)%nat args (counter + 1)
                      ltac:(lia)).
        destruct (replace_param_groups p _ args (counter + 1)) as [tail|v]; cbn.
        -- split; [intros [v [=]]|]. intros H.
           assert (Hx : exists v : panic_value, Returned tail = Panicked v)
             by (apply IH; lia).
           destruct Hx as [v [=]].
        -- split; [intros _|eauto].
           assert (Hx : exists v' : panic_value, Panicked (A:=string) v = Panicked v')
             by eauto.
           apply IH in Hx. lia.
      * apply slice_index_Panicked in Hs as [Hs _]. split; [intros _; lia|eauto].
    + specialize (IH 0%nat args counter Hc).
      destruct (replace_param_groups p 0 args counter) as [tail|v]; cbn.
      * split; [intros [v [=]]|]. intros H. apply IH in H as [v [=]].
      * split; [intros _|eauto]. apply IH. eauto.
Qed.

(** C6, as stated, fails: with three arguments for the two parameters of
    route [p1] a URL is returned and the third argument is dropped. *)
Lemma BuildUrl_surplus_counterexample :
  (PathParamNames <$> Routes buildurl_app !! "p1") = Some ["param1"; "param2"]
  /\ BuildUrl buildurl_app "p1" ["a"; "b"; "c"] = Returned "/p1/a/b".
Proof. split; vm_compute; reflexivity. Qed.

(** C6, amended.  [BuildUrl] panics exactly when the route name is not
    registered or when there are fewer arguments than groups
    [(?P<name>...)] found in the pattern of the route; in every other case,
    surplus arguments included, it returns a URL. *)
Theorem BuildUrl_panics_iff (app : App) (n : string) (args : list string) :
  (exists v, BuildUrl app n args = Panicked v) <->
  (Routes app !! n = None
   \/ exists route, Routes app !! n = Some route
        /\ (length args < count_param_groups (PatternString route) 0)%nat).
Proof.
  unfold BuildUrl. destruct (Routes app !! n) as [route|].
  - rewrite replace_param_groups_panics by lia. split.
    + intros H. right. exists route. split; [reflexivity|lia].
    + intros [[=]|(route' & [= <-] & H)]. lia.
  - split; [auto|eauto].
Qed.

(** ** The tests of the package, run on the embedding *)

Example TestSignedString :
  ValidateSignedString (SignString "ABCDE" "secret") "secret" = Returned ("ABCDE", None)
  /\ ValidateSignedString ("FGH" +:+ string_drop 5 (SignString "ABCDE" "secret")) "secret"
     = Returned ("", Some tampered).
Proof. split; vm_compute; reflexivity. Qed.

Example TestAppBuildUrl :
  BuildUrl buildurl_app "p1" ["aaa"; "bbb"] = Returned "/p1/aaa/bbb".
Proof. vm_compute. reflexivity. Qed.

Example TestAppMiddleware :
  (get middleware_app "/p1/page1").1
    = "md1-1md3-1md2-1md4-1md3-1md3-2md4-2md2-2md3-2md1-2"
  /\ (get middleware_app "/p1/page2").1 = "md1-1md3-1md2-1md4-1md4-2md2-2md3-2md1-2"
  /\ (get middleware_app "/p2/page3").1 = "md1-1md3-1md3-2md1-2".
Proof. repeat split; vm_compute; reflexivity. Qed.

Example TestAppNotFound :
  get buildurl_app "/p3/page1/value"
  = ("404 page not found" +:+ String "010" EmptyString, Some 404).
Proof. vm_compute. reflexivity. Qed.

Example TestAppPanic :
  get panic_app "/page1"
  = ("Internal Server Error" +:+ String "010" EmptyString +:+ "hook2hook1", Some 500).
Proof. vm_compute. reflexivity. Qed.

(** * Properties of the rest of the three files *)

(** ** utils.go: Dict *)

Lemma Dict_Update_lookup (entries : list (string * value)) :
  forall (self : gmap string value) (k : string),
    NoDup entries.*1 ->
    Dict_Update self entries !! k =
    match list_to_map (M := gmap string value) entries !! k with
    | Some v => Some v
    | None => self !! k
    end.
Proof.
  unfold Dict_Update.
  induction entries as [|[k' v'] entries IH]; intros self k Hnd; cbn [foldl].
  - change (list_to_map (M := gmap string value) []) with (∅ : gmap string value).
    now rewrite lookup_empty.
  - apply NoDup_cons in Hnd as [Hk' Hnd]. rewrite IH by exact Hnd.
    cbn [list_to_map foldr fst snd].
    destruct (decide (k' = k)) as [->|Hne].
    + rewrite lookup_insert_eq.
      rewrite (not_elem_of_list_to_map_1 (M := gmap string)) by exact Hk'.
      now rewrite lookup_insert_eq.
    + rewrite (lookup_insert_ne _ k' k) by exact Hne.
      now rewrite lookup_insert_ne by exact Hne.
Qed.

(** X1.  [Update] gives every key of [other] the value it has in [other] and
    leaves the other keys of [self] alone, in whatever order the entries of
    [other] are visited. *)
Theorem Dict_Update_spec (self other : gmap string value)
    (entries : list (string * value)) (k : string) :
  range_order other entries ->
  Dict_Update self entries !! k =
  match other !! k with
  | Some v => Some v
  | None => self !! k
  end.
Proof.
  unfold range_order. intros Hp.
  assert (Hnd : NoDup entries.*1).
  { rewrite Hp. apply NoDup_fst_map_to_list. }
  rewrite Dict_Update_lookup by exact Hnd.
  assert (Hm : list_to_map (M := gmap string value) entries = other).
  { rewrite <- (list_to_map_to_list other). apply list_to_map_proper; auto. }
  now rewrite Hm.
Qed.

Lemma Dict_Update_spec_witness :
  range_order (<["a" := VInt 1]> (∅ : gmap string value)) [("a", VInt 1)]
  /\ Dict_Update (<["a" := VInt 0]> (<["b" := VInt 2]> ∅)) [("a", VInt 1)] !! "a"
     = Some (VInt 1)
  /\ Dict_Update (<["a" := VInt 0]> (<["b" := VInt 2]> ∅)) [("a", VInt 1)] !! "b"
     = Some (VInt 2).
Proof.
  assert (H : range_order (<["a" := VInt 1]> (∅ : gmap string value)) [("a", VInt 1)]).
  { unfold range_order. rewrite map_to_list_insert by apply lookup_empty.
    now rewrite map_to_list_empty. }
  split; [exact H|]. split.
  - rewrite (Dict_Update_spec _ _ _ "a" H). vm_compute. reflexivity.
  - rewrite (Dict_Update_spec _ _ _ "b" H). vm_compute. reflexivity.
Defined.

(** X2.  [Pop] returns what [Get] returns, and afterwards the key is absent and
    every other key is as before; on a missing key it returns nothing and
    changes nothing. *)
Theorem Dict_Pop_spec (self : gmap string value) (key : string) :
  (Dict_Pop self key).1 = Dict_Get self key
  /\ Dict_Has (Dict_Pop self key).2 key = false
  /\ (forall k, k <> key -> Dict_Get (Dict_Pop self key).2 k = Dict_Get self k)
  /\ (Dict_Has self key = false -> Dict_Pop self key = (None, self)).
Proof.
  unfold Dict_Pop, Dict_Get, Dict_Has, Dict_Del. cbn [fst snd].
  split; [reflexivity|]. split; [|split].
  - rewrite lookup_delete_eq. apply bool_decide_eq_false. now intros [? ?].
  - intros k Hk. now apply lookup_delete_ne.
  - intros H. apply bool_decide_eq_false in H.
    destruct (self !! key) eqn:E; [exfalso; apply H; eauto|].
    f_equal. now apply delete_id.
Qed.

Ltac getter_case :=
  split;
  [ intros [v Hv];
    first [ discriminate Hv
          | eexists; split; [reflexivity | intros ?; discriminate] ]
  | intros (x & Hx & Hne);
    first [ discriminate Hx
          | injection Hx as <-; first [ now (exfalso; eapply Hne) | eauto ] ] ].

(** X3.  The typed getters return the zero value on a missing key and panic
    exactly when the key holds a value of another type. *)
Theorem Dict_typed_getters (self : gmap string value) (key : string) :
  (Dict_Has self key = false ->
     Dict_GetString self key = Returned EmptyString
     /\ Dict_GetInt self key = Returned 0
     /\ Dict_GetBool self key = Returned false)
  /\ ((exists v, Dict_GetString self key = Panicked v)
      <-> exists x, self !! key = Some x /\ forall s, x <> VString s)
  /\ ((exists v, Dict_GetInt self key = Panicked v)
      <-> exists x, self !! key = Some x /\ forall n, x <> VInt n)
  /\ ((exists v, Dict_GetBool self key = Panicked v)
      <-> exists x, self !! key = Some x /\ forall b, x <> VBool b).
Proof.
  unfold Dict_Has, Dict_GetString, Dict_GetInt, Dict_GetBool.
  split; [|split; [|split]].
  - intros H. apply bool_decide_eq_false in H.
    destruct (self !! key); [exfalso; apply H; eauto|auto].
  - destruct (self !! key) as [[s|n|b|m]|]; getter_case.
  - destruct (self !! key) as [[s|n|b|m]|]; getter_case.
  - destruct (self !! key) as [[s|n|b|m]|]; getter_case.
Qed.

(** ** utils.go: what validates *)

(** X4.  [ValidateSignedString] returns an id without error exactly on the value
    [SignString] gives for that id and that key. *)
Theorem ValidateSignedString_accepts_iff (value key id : string) :
  ValidateSignedString value key = Returned (id, None) <-> value = SignString id key.
Proof.
  split; [apply ValidateSignedString_inv|]. intros ->. apply ValidateSignedString_sign.
Qed.

(** X5.  The tag [SignString] puts in front of the separator does not depend on
    the value: from one signed value, whatever the key it was made with, the
    signed value of any other id is computed without the key, and it
    validates. *)
Theorem signed_value_can_be_remade (key old id : string) :
  resign (SignString old key) id = Some (SignString id key)
  /\ (forall forged, resign (SignString old key) id = Some forged ->
        ValidateSignedString forged key = Returned (id, None)).
Proof.
  assert (H : resign (SignString old key) id = Some (SignString id key)).
  { unfold resign, SignString at 1. rewrite Cut_after_hex.
    unfold HMAC.Sum, HMAC.New. cbn [HMAC.key HMAC.written].
    rewrite Sprintf_x_app, <- (Sprintf_x_length old), string_drop_app.
    now rewrite SignString_eq. }
  split; [exact H|]. intros forged Hf. rewrite H in Hf. injection Hf as <-.
  apply ValidateSignedString_sign.
Qed.

(** ** session.go: flash messages, continued *)

Lemma AddFlash_all_eq (msgs : list string) :
  forall (sess : Session) (m : gmap string (list string)) (category : string),
    session_flash sess = Returned m ->
    msgs <> [] ->
    AddFlash_all sess category msgs =
    Returned (Session_Set sess FlashKey
                (VFlash (<[category := default [] (m !! category) ++ msgs]> m))).
Proof.
  induction msgs as [|msg msgs IH]; intros sess m category Hm Hne; [contradiction|].
  cbn [AddFlash_all]. rewrite (AddFlash_eq _ _ _ _ Hm). cbn [mbind go_result_bind go_bind].
  destruct msgs as [|msg' msgs].
  - reflexivity.
  - rewrite (IH _ _ category (session_flash_Set _ _)) by discriminate.
    rewrite lookup_insert_eq. cbn [from_option id].
    unfold Session_Set. cbn [sess_Dict Killed Id LastAccessTime].
    now rewrite !insert_insert_eq, <- app_assoc.
Qed.

(** X6.  Messages added to a category that was empty are read back by [Flash] in
    the order in which they were added; the read removes the category, so a
    second read returns no message, and the other categories are as they
    were before the messages were added. *)
Theorem flash_add_then_read (sess : Session) (m : gmap string (list string))
    (category : string) (msgs : list string) :
  session_flash sess = Returned m ->
  m !! category = None ->
  exists sess1 sess2 sess3 : Session,
    AddFlash_all sess category msgs = Returned sess1
    /\ Flash sess1 category = Returned (msgs, sess2)
    /\ session_flash sess2 = Returned m
    /\ Flash sess2 category = Returned ([], sess3)
    /\ session_flash sess3 = Returned m.
Proof.
  intros Hm Hc.
  assert (Hsecond : forall s, session_flash s = Returned m ->
            Flash s category
            = Returned ([], Session_Set s FlashKey (VFlash m))).
  { intros s Hs. unfold Flash. rewrite Hs. cbn [mbind go_result_bind go_bind].
    rewrite Hc. now rewrite delete_id by exact Hc. }
  destruct msgs as [|msg msgs].
  - exists sess. do 2 eexists. split; [reflexivity|].
    split; [now apply Hsecond|]. split; [apply session_flash_Set|].
    split; [apply Hsecond, session_flash_Set|apply session_flash_Set].
  - eexists. do 2 eexists.
    split; [now apply (AddFlash_all_eq (msg :: msgs) sess m category Hm)|].
    rewrite Hc. cbn [from_option app].
    split; [|split; [|split]].
    + unfold Flash. rewrite session_flash_Set. cbn [mbind go_result_bind go_bind].
      rewrite lookup_insert_eq. reflexivity.
    + rewrite session_flash_Set. f_equal.
      rewrite delete_insert_eq. now apply delete_id.
    + apply Hsecond. rewrite session_flash_Set. f_equal.
      rewrite delete_insert_eq. now apply delete_id.
    + apply session_flash_Set.
Qed.

Lemma flash_add_then_read_witness :
  session_flash (NewSession "s1" 0) = Returned ∅
  /\ (∅ : gmap string (list string)) !! "info" = None
  /\ exists sess1 sess2,
       AddFlash_all (NewSession "s1" 0) "info" ["a"; "b"; "c"] = Returned sess1
       /\ Flash sess1 "info" = Returned (["a"; "b"; "c"], sess2).
Proof.
  assert (H1 : session_flash (NewSession "s1" 0) = Returned ∅)
    by apply session_flash_Set.
  assert (H2 : (∅ : gmap string (list string)) !! "info" = None) by apply lookup_empty.
  split; [exact H1|]. split; [exact H2|].
  destruct (flash_add_then_read (NewSession "s1" 0) ∅ "info" ["a"; "b"; "c"] H1 H2)
    as (sess1 & sess2 & _ & Ha & Hf & _).
  exists sess1, sess2. split; assumption.
Defined.

Lemma session_do_flash (sess : Session) (c : session_call) :
  (exists m, session_flash sess = Returned m) ->
  exists sess', session_do sess c = Returned sess'
                /\ exists m', session_flash sess' = Returned m'.
Proof.
  intros [m Hm]. destruct c as [category message|category| | |now]; cbn [session_do].
  - rewrite (AddFlash_eq _ _ _ _ Hm). eexists. split; [reflexivity|].
    eexists. apply session_flash_Set.
  - unfold Flash. rewrite Hm. cbn [mbind go_result_bind go_bind].
    destruct (m !! category); cbn; eexists; (split; [reflexivity|]);
      eexists; apply session_flash_Set.
  - rewrite (Flashes_eq _ _ Hm). cbn. eexists. split; [reflexivity|].
    eexists. apply session_flash_Set.
  - eexists. split; [reflexivity|]. exists m. exact Hm.
  - eexists. split; [reflexivity|]. exists m. exact Hm.
Qed.

(** X7.  A session made by [NewSession] keeps a flash map whatever calls of
    [AddFlash], [Flash], [Flashes], [Kill] and [UpdateLastAccessTime] are
    made on it, so none of these calls ever panics on the type assertion. *)
Theorem session_calls_never_panic (id : string) (now : Time) (cs : list session_call) :
  exists sess, session_do_all (NewSession id now) cs = Returned sess
               /\ exists m, session_flash sess = Returned m.
Proof.
  assert (H : exists m, session_flash (NewSession id now) = Returned m)
    by (eexists; apply session_flash_Set).
  revert H. generalize (NewSession id now).
  induction cs as [|c cs IH]; intros sess H; cbn [session_do_all].
  - eauto.
  - destruct (session_do_flash sess c H) as (sess' & -> & H').
    cbn [mbind go_result_bind go_bind]. now apply IH.
Qed.

(** ** session.go: the memory store, continued *)

Lemma Store_Exists_false (ms : MemorySessionStore) (id : string) :
  Store_Exists ms id = false <-> store ms !! id = None.
Proof.
  unfold Store_Exists. rewrite bool_decide_eq_false.
  destruct (store ms !! id); split; intros H; try reflexivity; try discriminate.
  - exfalso. apply H. eauto.
  - now intros [? ?].
Qed.

Lemma SHA1_sum_length (msg : string) : String.length (SHA1.sum msg) = 20%nat.
Proof.
  unfold SHA1.sum, SHA1.sum_bytes.
  destruct (SHA1.blocks _ _ _) as [[[[h0 h1] h2] h3] h4]. reflexivity.
Qed.

Lemma NewSessionId_facts (ms : MemorySessionStore) (secret : string)
    (readings : list (Z * Z)) :
  (is_Some (NewSessionId ms secret readings) <->
   exists now random, (now, random) ∈ readings
     /\ Store_Exists ms (session_id_candidate secret now random) = false)
  /\ (forall id, NewSessionId ms secret readings = Some id ->
        store ms !! id = None
        /\ String.length id = 40%nat
        /\ exists now random, (now, random) ∈ readings
             /\ id = session_id_candidate secret now random).
Proof.
  induction readings as [|[now random] readings [IH1 IH2]]; cbn [NewSessionId].
  - split.
    + split; [intros [? [=]]|]. intros (? & ? & H & _). inversion H.
    + intros id [=].
  - destruct (Store_Exists ms (session_id_candidate secret now random)) eqn:E.
    + split.
      * rewrite IH1. split.
        -- intros (n & r & Hin & Hf). exists n, r. split; [now right|exact Hf].
        -- intros (n & r & Hin & Hf). exists n, r. split; [|exact Hf].
           apply elem_of_cons in Hin as [[= -> ->]|Hin]; [congruence|exact Hin].
      * intros id Hid. destruct (IH2 id Hid) as (H1 & H2 & n & r & Hin & Hc).
        split; [exact H1|]. split; [exact H2|]. exists n, r. split; [now right|exact Hc].
    + split.
      * split; [|eauto]. intros _. exists now, random. split; [now left|exact E].
      * intros id [= <-]. split; [now apply Store_Exists_false|]. split.
        -- unfold session_id_candidate. now rewrite Sprintf_x_length, SHA1_sum_length.
        -- exists now, random. split; [now left|reflexivity].
Qed.

(** X8.  [NewSessionId] returns the id of the first reading whose id is not in
    the store: it returns as soon as one reading gives a free id, the id
    returned is not in the store and it is made of 40 hexadecimal digits. *)
Theorem NewSessionId_spec (ms : MemorySessionStore) (secret : string)
    (readings : list (Z * Z)) :
  (is_Some (NewSessionId ms secret readings) <->
   exists now random, (now, random) ∈ readings
     /\ Store_Exists ms (session_id_candidate secret now random) = false)
  /\ (forall id, NewSessionId ms secret readings = Some id ->
        store ms !! id = None
        /\ String.length id = 40%nat
        /\ exists now random, (now, random) ∈ readings
             /\ id = session_id_candidate secret now random).
Proof. exact (NewSessionId_facts ms secret readings). Qed.






(** X11.  A sweep of [Gc] only removes: every session the store holds afterwards
    was held before, unchanged and under the same id, and the count does not
    grow. *)
Theorem Gc_only_removes (ms : MemorySessionStore) (entries : list (string * Session))
    (now : nat -> Time) :
  (forall k s, store (Gc ms entries now) !! k = Some s -> store ms !! k = Some s)
  /\ (Store_Count (Gc ms entries now) <= Store_Count ms)%nat
  /\ LifeTime (Gc ms entries now) = LifeTime ms.
Proof.
  assert (H : forall k s, store (Gc ms entries now) !! k = Some s -> store ms !! k = Some s).
  { intros k s. unfold Gc. rewrite store_foldl_Delete.
    destruct (decide _); [discriminate|auto]. }
  split; [exact H|]. split.
  - apply map_subseteq_size. apply map_subseteq_spec. exact H.
  - unfold Gc. generalize (Gc_delkeys (LifeTime ms) now 0 entries []). intros keys.
    clear H. revert ms. induction keys as [|key keys IH]; intros ms; [reflexivity|].
    cbn [foldl]. now rewrite IH.
Qed.

(** ** session.go: the middleware *)

Lemma Index_zero_iff (s sep : string) : Index s sep = 0 <-> HasPrefix s sep = true.
Proof.
  unfold Index. rewrite Cut_unfold. destruct (HasPrefix s sep).
  - split; reflexivity.
  - destruct s as [|c s]; [split; discriminate|].
    destruct (Cut s sep) as [[before after]|]; split; discriminate.
Qed.

Lemma Cut_colon_before (s before after : string) :
  Cut s ":" = Some (before, after) -> Contains before ":" = false.
Proof.
  revert before after. induction s as [|c s IH]; intros before after; rewrite Cut_unfold.
  - cbn. discriminate.
  - destruct (HasPrefix (String c s) ":") eqn:Hp.
    + intros [= <- _]. reflexivity.
    + destruct (Cut s ":") as [[b a]|] eqn:Hc; [|discriminate].
      intros [= <- _]. specialize (IH b a eq_refl).
      unfold Contains in *. rewrite Cut_unfold.
      cbn [HasPrefix] in *. destruct (Ascii.eqb c ":"); [discriminate|].
      now destruct (Cut b ":").
Qed.

(** [strings.Split(host, ":")[0]] never panics: it is the host up to its
    first colon. *)
Lemma host_without_port (host : string) :
  exists first,
    slice_index (Split host ":") 0 = Returned first
    /\ (Contains host ":" = false -> first = host)
    /\ Contains first ":" = false.
Proof.
  unfold Split, Count, Contains.
  destruct (Cut host ":") as [[b a]|] eqn:E.
  - destruct host as [|c host]; [discriminate|].
    cbn [String.length Count_upto]. rewrite E. cbn [SplitN]. rewrite E.
    exists b. split; [reflexivity|]. split; [discriminate|].
    apply (Cut_colon_before _ _ _ E).
  - exists host. replace (Count_upto (String.length host) host ":") with 0%nat
      by (destruct (String.length host); cbn [Count_upto]; [|rewrite E]; reflexivity).
    cbn [SplitN]. split; [reflexivity|]. split; [reflexivity|].
    unfold Contains. now rewrite E.
Qed.

Lemma finalize_session_facts (cfg : SessionConfig) (ms : MemorySessionStore)
    (path host : string) (session : option Session) (now : Time) :
  exists (c : option Cookie) (ms' : MemorySessionStore),
    finalize_session cfg ms path host session now = Returned (c, ms')
    /\ (is_Some c <-> session_applies cfg path = true /\ is_Some session)
    /\ (c = None -> ms' = ms)
    /\ (forall cookie s, c = Some cookie -> session = Some s ->
          cookie_HttpOnly cookie = true
          /\ cookie_Name cookie = CookieName cfg
          /\ cookie_Path cookie = CookiePath cfg
          /\ cookie_Value cookie = SignString (Id s) (Secret cfg)
          /\ (CookieDomain cfg = "" -> Contains host ":" = false ->
                cookie_Domain cookie = host)
          /\ (CookieDomain cfg = "" -> Contains (cookie_Domain cookie) ":" = false)).
Proof.
  unfold finalize_session, session_applies.
  destruct (Z.eqb_spec (Index path (CookiePath cfg)) 0) as [Hi|Hi]; cbn [negb].
  - apply Index_zero_iff in Hi.
    destruct (host_without_port host) as (first & Hs & Hfirst1 & Hfirst2).
    assert (Hd : exists domain,
               (if (String.length (CookieDomain cfg) =? 0)%nat
                then slice_index (Split host ":") 0
                else Returned (CookieDomain cfg)) = Returned domain
               /\ (CookieDomain cfg = "" -> Contains host ":" = false -> domain = host)
               /\ (CookieDomain cfg = "" -> Contains domain ":" = false)).
    { destruct (CookieDomain cfg) as [|a d] eqn:Ed.
      - exists first. cbn [String.length Nat.eqb]. auto.
      - exists (String a d). cbn [String.length Nat.eqb].
        split; [reflexivity|]. split; discriminate. }
    destruct Hd as (domain & -> & Hd1 & Hd2). cbn [mbind go_result_bind go_bind].
    destruct session as [s|].
    + destruct (Killed s); eexists; eexists; (split; [reflexivity|]);
        (split; [split; [intros _; split; [exact Hi|eauto] | eauto]|]);
        (split; [discriminate|]);
        intros cookie s' [= <-] [= <-]; cbn; auto 10.
    + exists None, ms. split; [reflexivity|]. split.
      * split; [intros [? [=]]|intros [_ [? [=]]]].
      * split; [reflexivity|]. intros ? ? [=].
  - exists None, ms. split; [reflexivity|]. split.
    + split; [intros [? [=]]|]. intros [Hp _]. apply Index_zero_iff in Hp. contradiction.
    + split; [reflexivity|]. intros ? ? [=].
Qed.


(** X13.  The cookie set for a session that is alive and kept by the store brings
    the same session back on the next request: the session comes back as it
    is kept, with only its time of last access moved, the store keeps it
    under the same id, and no session is made. *)
Theorem session_cookie_round_trip (cfg : SessionConfig) (ms : MemorySessionStore)
    (path host : string) (s : Session) (now : Time)
    (readings : list (Z * Z)) (created accessed : Time) :
  session_applies cfg path = true ->
  Killed s = false ->
  store ms !! Id s = Some s ->
  exists cookie,
    finalize_session cfg ms path host (Some s) now = Returned (Some cookie, ms)
    /\ cookie_MaxAge cookie = 0
    /\ attach_session cfg ms (Some (cookie_Value cookie)) readings created accessed
       = Returned (Some (UpdateLastAccessTime s accessed,
                         mkStore (<[Id s := UpdateLastAccessTime s accessed]> (store ms))
                           (LifeTime ms))).
Proof.
  intros Hp Hk Hs.
  destruct (finalize_session_facts cfg ms path host (Some s) now)
    as (c & ms' & Hf & Hc & _ & Hcookie).
  destruct c as [cookie|]; [|exfalso; destruct (proj2 Hc) as [? [=]]; eauto].
  destruct (Hcookie cookie s eq_refl eq_refl) as (_ & _ & _ & Hv & _).
  assert (ms' = ms /\ cookie_MaxAge cookie = 0) as [-> Hm].
  { unfold finalize_session in Hf.
    destruct (negb _); [discriminate|].
    destruct (if (String.length (CookieDomain cfg) =? 0)%nat then _ else _);
      cbn in Hf; [|discriminate].
    rewrite Hk in Hf. now injection Hf as <- <-. }
  exists cookie. split; [exact Hf|]. split; [exact Hm|].
  unfold attach_session. rewrite Hv, ValidateSignedString_sign.
  cbn [mbind go_result_bind go_bind fst snd].
  unfold Store_Load. rewrite Hs.
  replace (Store_Exists ms (Id s)) with true; [reflexivity|].
  symmetry. apply bool_decide_eq_true. eauto.
Qed.

Lemma session_cookie_round_trip_witness :
  let s := NewSession "abc" 5 in
  let ms := mkStore (<["abc" := s]> ∅) 100 in
  session_applies DefaultSessionConfig "/page" = true
  /\ Killed s = false
  /\ store ms !! Id s = Some s
  /\ exists cookie,
       finalize_session DefaultSessionConfig ms "/page" "localhost:8080" (Some s) 7
       = Returned (Some cookie, ms)
       /\ attach_session DefaultSessionConfig ms (Some (cookie_Value cookie)) [] 8 9
          = Returned (Some (UpdateLastAccessTime s 9,
                            mkStore (<[Id s := UpdateLastAccessTime s 9]> (store ms))
                              (LifeTime ms))).
Proof.
  intros s ms.
  assert (H1 : session_applies DefaultSessionConfig "/page" = true) by reflexivity.
  assert (H2 : Killed s = false) by reflexivity.
  assert (H3 : store ms !! Id s = Some s) by apply lookup_insert_eq.
  split; [exact H1|]. split; [exact H2|]. split; [exact H3|].
  destruct (session_cookie_round_trip DefaultSessionConfig ms "/page" "localhost:8080"
              s 7 [] 8 9 H1 H2 H3) as (cookie & Hf & _ & Ha).
  exists cookie. split; assumption.
Defined.



(** X15.  With a cookie, the first step of the middleware panics exactly when the
    value of the cookie is not what [SignString] gives, with the secret of
    the configuration, for some id. *)
Theorem attach_session_panics_iff (cfg : SessionConfig) (ms : MemorySessionStore)
    (signedString : string) (readings : list (Z * Z)) (created accessed : Time) :
  (exists v, attach_session cfg ms (Some signedString) readings created accessed
             = Panicked v)
  <-> forall id, signedString <> SignString id (Secret cfg).
Proof.
  unfold attach_session. split.
  - intros [v Hv] id ->. rewrite ValidateSignedString_sign in Hv. discriminate.
  - intros Hne.
    destruct (ValidateSignedString signedString (Secret cfg)) as [[id [err|]]|v] eqn:E;
      cbn; eauto.
    apply ValidateSignedString_inv in E. now destruct (Hne id).
Qed.

(** ** app.go: the response writer during a request *)


Section Preserved.

Variable R : responseWriter -> responseWriter -> Prop.
Hypothesis R_refl : forall w, R w w.
Hypothesis R_trans : forall w1 w2 w3, R w1 w2 -> R w2 w3 -> R w1 w3.
Hypothesis R_Write : forall w b, R w (rw_Write w b).
Hypothesis R_WriteHeader : forall w s, R w (rw_WriteHeader w s).






End Preserved.

Lemma Body_transport_WriteHeader (t : transport) (code : Z) :
  Body (transport_WriteHeader t code) = Body t.
Proof. unfold Body. now rewrite Chunks_WriteHeader. Qed.

Lemma Body_snoc (chunks : list string) (b : string) :
  foldr String.append EmptyString (chunks ++ [b])
  = foldr String.append EmptyString chunks +:+ b.
Proof.
  induction chunks as [|c chunks IH]; cbn [app foldr].
  - sapp. induction b as [|x b IHb]; sapp; [reflexivity|now rewrite IHb].
  - now rewrite IH, string_app_assoc.
Qed.

Lemma Body_rw_Write (w : responseWriter) (b : string) :
  Body (ResponseWriter (rw_Write w b)) = Body (ResponseWriter w) +:+ b.
Proof. unfold Body. now rewrite Chunks_rw_Write, Body_snoc. Qed.

Lemma Body_rw_WriteHeader (w : responseWriter) (s : Z) :
  Body (ResponseWriter (rw_WriteHeader w s)) = Body (ResponseWriter w).
Proof. unfold Body. now rewrite Chunks_rw_WriteHeader. Qed.



(** X17.  A panic after the response has started: the default panic handler
    cannot change the status the client has received; it adds its text to
    the body, and [Status()] of the response writer says 500 from then on. *)
Theorem panic_after_first_write (report : panic_value -> string) (cfg : AppConfig)
    (v : panic_value) (st : request_state) (c : Z) :
  Debug cfg = false ->
  Code (ResponseWriter (w st)) = Some c ->
  exists st',
    run (DefaultOnPanic report cfg v) st = (Done, st')
    /\ Code (ResponseWriter (w st')) = Some c
    /\ status (w st') = 500
    /\ Body (ResponseWriter (w st'))
       = Body (ResponseWriter (w st)) +:+ "Internal Server Error" +:+ String "010" EmptyString
    /\ ctx st' = ctx st.
Proof.
  intros Hd Hc. unfold DefaultOnPanic. rewrite Hd.
  unfold http_Error, StatusInternalServerError.
  rewrite run_WriteHeader, run_Write, run_Ret.
  eexists. split; [reflexivity|]. cbn [w set_w ctx].
  split; [|split; [|split; [|reflexivity]]].
  - unfold rw_Write, rw_WriteHeader, transport_Write, transport_WriteHeader.
    cbn. rewrite Hc. destruct (contentLength (w st) =? 0); cbn; rewrite ?Hc; reflexivity.
  - unfold rw_Write, rw_WriteHeader. cbn. now destruct (contentLength (w st) =? 0).
  - now rewrite Body_rw_Write, Body_rw_WriteHeader.
Qed.

Lemma panic_after_first_write_witness :
  let st := mkState (rw_Write (NewResponseWriter empty_transport) "partial") NewContext in
  Debug DefaultAppConfig = false
  /\ Code (ResponseWriter (w st)) = Some 200
  /\ exists st',
       run (DefaultOnPanic no_report DefaultAppConfig (PanicString "panic!")) st = (Done, st')
       /\ Code (ResponseWriter (w st')) = Some 200
       /\ status (w st') = 500.
Proof.
  intros st.
  assert (H1 : Debug DefaultAppConfig = false) by reflexivity.
  assert (H2 : Code (ResponseWriter (w st)) = Some 200) by reflexivity.
  split; [exact H1|]. split; [exact H2|].
  destruct (panic_after_first_write no_report DefaultAppConfig (PanicString "panic!")
              st 200 H1 H2) as (st' & Hr & Hcode & Hs & _).
  exists st'. repeat split; assumption.
Defined.

(** ** app.go: hooks *)

Lemma run_all_app (ps1 ps2 : list prog) (st : request_state) :
  run_all (ps1 ++ ps2) st = and_then (run_all ps1 st) (run_all ps2).
Proof.
  revert st. induction ps1 as [|p ps1 IH]; intros st; cbn [app run_all and_then].
  - reflexivity.
  - destruct (run p st) as [[|v|] st1]; [apply IH|reflexivity|reflexivity].
Qed.

Lemma run_all_one (p : prog) (st : request_state) : run_all [p] st = run p st.
Proof. cbn [run_all]. now destruct (run p st) as [[|v|] st1]. Qed.

Lemma run_all_snoc (ps : list prog) (p : prog) (st : request_state) :
  run_all (ps ++ [p]) st = and_then (run_all ps st) (run p).
Proof.
  rewrite run_all_app. unfold and_then.
  destruct (run_all ps st) as [[|v|] st1]; [apply run_all_one|reflexivity..].
Qed.

Lemma run_all_cons (p : prog) (ps : list prog) (st : request_state) :
  run_all (p :: ps) st = and_then (run p st) (run_all ps).
Proof. cbn [run_all]. unfold and_then. now destruct (run p st) as [[|v|] st1]. Qed.

Lemma Hooks_Add_lookup (hooks : Hooks) (name name' : string) (hook : Hook) :
  Hooks_Add hooks name hook !!! name'
  = if decide (name = name') then (hooks !!! name) ++ [hook] else hooks !!! name'.
Proof.
  unfold Hooks_Add. destruct (decide (name = name')) as [->|Hne].
  - apply lookup_total_insert_eq.
  - now apply lookup_total_insert_ne.
Qed.

(** X18.  A hook added to a hook point runs after the hooks already there when
    the point is run forwards and before them when it is run in reverse; a
    hook that panics keeps the hooks after it from running; the other hook
    points are not affected. *)
Theorem Hooks_Add_then_Run (hooks : Hooks) (name : string) (hook : Hook)
    (st : request_state) :
  Hooks_Run (Hooks_Add hooks name hook) name HookDirectionNormal st
  = and_then (Hooks_Run hooks name HookDirectionNormal st) (run hook)
  /\ Hooks_Run (Hooks_Add hooks name hook) name HookDirectionReverse st
     = and_then (run hook st) (Hooks_Run hooks name HookDirectionReverse)
  /\ (forall name' d, name' <> name ->
        Hooks_Run (Hooks_Add hooks name hook) name' d st = Hooks_Run hooks name' d st).
Proof.
  unfold Hooks_Run. split; [|split].
  - rewrite Hooks_Add_lookup, decide_True by reflexivity. apply run_all_snoc.
  - rewrite Hooks_Add_lookup, decide_True by reflexivity.
    rewrite rev_app_distr. cbn [rev app]. apply run_all_cons.
  - intros name' d Hne. rewrite Hooks_Add_lookup, decide_False by congruence.
    reflexivity.
Qed.

(** ** app.go: what cleanup does not catch *)

(** X19.  [cleanup] recovers the panic of the body only.  When the panic handler
    itself panics, that panic leaves [App.ServeHTTP], the response time is
    not recorded and no [end_request] hook runs; when an [end_request] hook
    panics, that panic leaves [App.ServeHTTP] too. *)
Theorem panics_inside_cleanup_escape (app : App) (entries : list (string * Route))
    (r : Request) (ww : transport) (t0 t1 : Time) (o : outcome)
    (st1 st2 : request_state) (v v' : panic_value) :
  ServeHTTP_body app entries r (initial_state ww t0) = (o, st1) ->
  (o = Panicking v ->
   run (OnPanic app (Config app) v) st1 = (Panicking v', st2) ->
   ServeHTTP app entries r ww t0 t1 = (Panicking v', st2))
  /\ (o = Done ->
      Hooks_Run (app_Hooks app) "end_request" HookDirectionReverse
        (set_ResponseTime st1 (time_Sub t1 t0)) = (Panicking v', st2) ->
      ServeHTTP app entries r ww t0 t1 = (Panicking v', st2)).
Proof.
  intros Hb. unfold ServeHTTP, cleanup. rewrite Hb.
  destruct (ServeHTTP_body_spec _ _ _ _ _ _ Hb) as [Hs _]. cbn in Hs.
  split.
  - intros -> Hp. rewrite Hp. reflexivity.
  - intros -> Hh. unfold and_then. now rewrite Hs.
Qed.

Lemma panics_inside_cleanup_escape_witness :
  let app := mkApp DefaultAppConfig ∅ [] (fun _ v => Panic v) (Panic (PanicString "nf")) ∅ in
  let r := mkRequest "GET" "/" "" in
  ServeHTTP_body app [] r (initial_state empty_transport 0)
  = (Panicking (PanicString "nf"), initial_state empty_transport 0)
  /\ ServeHTTP app [] r empty_transport 0 1
     = (Panicking (PanicString "nf"), initial_state empty_transport 0).
Proof.
  intros app r.
  assert (Hb : ServeHTTP_body app [] r (initial_state empty_transport 0)
               = (Panicking (PanicString "nf"), initial_state empty_transport 0))
    by (vm_compute; reflexivity).
  split; [exact Hb|].
  apply (proj1 (panics_inside_cleanup_escape app [] r empty_transport 0 1 _ _ _
                  (PanicString "nf") (PanicString "nf") Hb) eq_refl).
  vm_compute. reflexivity.
Defined.

(** ** app.go: chains, continued *)

Lemma run_DoNext_Ret (k : prog) (st : request_state) :
  run (DoNext k) st = and_then (run (DoNext Ret) st) (run k).
Proof.
  rewrite !run_DoNext. unfold and_then.
  destruct (advance st) as [st1 [md|v]]; [|reflexivity].
  destruct (run md st1) as [[|v|] st2]; [now rewrite run_Ret|reflexivity..].
Qed.

Lemma Chunks_rw_Write_all (bs : list string) (w : responseWriter) :
  Chunks (ResponseWriter (rw_Write_all w bs)) = Chunks (ResponseWriter w) ++ bs.
Proof.
  unfold rw_Write_all. revert w. induction bs as [|b bs IH]; intros w; cbn [foldl].
  - now rewrite app_nil_r.
  - now rewrite IH, Chunks_rw_Write, <- app_assoc.
Qed.

Lemma rw_Write_all_snoc (bs : list string) (b : string) (w : responseWriter) :
  rw_Write_all w (bs ++ [b]) = rw_Write (rw_Write_all w bs) b.
Proof. unfold rw_Write_all. now rewrite foldl_app. Qed.

Lemma length_arounds (pairs : list (string * string)) :
  length (arounds pairs) = length pairs.
Proof. apply length_map. Qed.

(** A continuation call in front of a block of [around] middlewares: the
    block writes its first chunks, hands over to what follows it with the
    cursor on its last middleware, and, when that has returned, writes its
    second chunks in reverse; a panic further on goes through the block. *)
Lemma run_into_arounds (pairs : list (string * string)) :
  forall (front tail : list Middleware) (st : request_state),
    let mds := front ++ arounds pairs ++ tail in
    cursor_at st mds (Z.of_nat (length front) - 1) ->
    exists st_in : request_state,
      w st_in = rw_Write_all (w st) pairs.*1
      /\ cursor_at st_in mds (Z.of_nat (length front + length pairs) - 1)
      /\ forall k,
           run (DoNext k) st =
           match run (DoNext Ret) st_in with
           | (Done, st_out) =>
               run k (set_w st_out (rw_Write_all (w st_out) (rev pairs.*2)))
           | other => other
           end.
Proof.
  induction pairs as [|[pre post] rest IH]; intros front tail st mds Hc.
  - exists st. split; [reflexivity|]. split.
    + subst mds. cbn [length arounds map app] in *. now rewrite Nat.add_0_r.
    + intros k. rewrite run_DoNext_Ret. unfold and_then.
      destruct (run (DoNext Ret) st) as [[|v|] st1]; [|reflexivity..].
      cbn [fmap list_fmap rev rw_Write_all foldl].
      destruct st1 as [w1 c1]. reflexivity.
  - pose proof (advance_at _ _ _ Hc) as Ha.
    replace (Z.of_nat (length front) - 1 + 1) with (Z.of_nat (length front)) in Ha by lia.
    subst mds. unfold arounds in *. cbn [map fst snd] in *. fold (arounds rest) in *.
    rewrite <- app_comm_cons in *.
    rewrite slice_index_middle in Ha.
    set (st1 := set_chain st _) in Ha.
    destruct (IH (front ++ [around pre post]) tail (set_w st1 (rw_Write (w st1) pre)))
      as (st_in & Hw & Hcin & Hrun).
    { unfold cursor_at, st1. cbn. rewrite <- app_assoc. cbn.
      rewrite length_app. cbn. do 2 f_equal. lia. }
    exists st_in. split; [|split].
    + rewrite Hw. reflexivity.
    + unfold cursor_at in *. rewrite Hcin, <- app_assoc. cbn.
      rewrite length_app. cbn. do 2 f_equal. lia.
    + intros k. rewrite run_DoNext, Ha. unfold around at 1.
      rewrite run_Write, Hrun.
      destruct (run (DoNext Ret) st_in) as [[|v|] st_out]; [|reflexivity..].
      rewrite run_Write, run_Ret. cbn [fmap list_fmap rev snd].
      now rewrite rw_Write_all_snoc.
Qed.

(** X20.  A middleware that returns without calling [DoNext] ends the chain: the
    middlewares in front of it finish, and neither the middlewares after it
    nor the handler run (the cursor stays on it and their output is absent). *)
Theorem chain_stops_without_DoNext (compile : string -> Regexp) (n p m : string)
    (s : bool) (handler : Middleware) (pairs : list (string * string))
    (b : string) (more : list Middleware) (st : request_state) :
  let route := NewRoute compile n p m s handler (arounds pairs ++ Write b Ret :: more) in
  exists st',
    Route_ServeHTTP route st = (Done, st')
    /\ written st' = written st ++ pairs.*1 ++ [b] ++ rev pairs.*2
    /\ cursor_at st' (middlewares (route_MiddlewareChain route)) (Z.of_nat (length pairs)).
Proof.
  cbn zeta. unfold Route_ServeHTTP, NewRoute, MiddlewareChain_Copy, NewMiddlewareChain.
  cbn [route_MiddlewareChain middlewares].
  set (mds := (arounds pairs ++ Write b Ret :: more) ++ [handler; NopMiddleware]).
  assert (Hmds : [] ++ arounds pairs ++ Write b Ret :: more ++ [handler; NopMiddleware] = mds)
    by (unfold mds; cbn; now rewrite <- app_assoc).
  destruct (run_into_arounds pairs [] (Write b Ret :: more ++ [handler; NopMiddleware])
              (set_chain st (Some (mkMiddlewareChain mds (-1)))))
    as (st_in & Hw & Hc & Hrun).
  { unfold cursor_at. now rewrite Hmds. }
  cbn [length Nat.add] in Hc.
  rewrite Hmds in Hc.
  pose proof (advance_at _ _ _ Hc) as Ha.
  replace (Z.of_nat (length pairs) - 1 + 1)
    with (Z.of_nat (length (arounds pairs))) in Ha
    by (rewrite length_arounds; lia).
  rewrite <- Hmds in Ha at 2. cbn [app] in Ha.
  rewrite slice_index_middle in Ha. rewrite length_arounds in Ha.
  rewrite Hrun, run_DoNext, Ha, run_Write, !run_Ret.
  eexists. split; [reflexivity|]. split.
  - unfold written. cbn [w set_w set_chain].
    rewrite Chunks_rw_Write_all, Chunks_rw_Write, Hw, Chunks_rw_Write_all.
    cbn [w set_chain]. now rewrite <- !app_assoc.
  - reflexivity.
Qed.

Lemma DoNext_out_of_range (st : request_state) (k : prog) :
  (forall mds i,
     cursor_at st mds i ->
     ~ (0 <= i + 1 < Z.of_nat (length mds)) ->
     run (DoNext k) st
     = (Panicking (PanicIndex (i + 1) (Z.of_nat (length mds))),
        set_chain st (Some (mkMiddlewareChain mds (i + 1)))))
  /\ (ctx_MiddlewareChain (ctx st) = None ->
      run (DoNext k) st = (Panicking PanicNilDereference, st)).
Proof.
  split.
  - intros mds i Hc Hi. rewrite run_DoNext, (advance_at _ _ _ Hc).
    destruct (slice_index mds (i + 1)) as [md|v] eqn:E.
    + apply slice_index_Returned in E as [E _]. contradiction.
    + apply slice_index_Panicked in E as [_ ->]. reflexivity.
  - intros Hn. rewrite run_DoNext. unfold advance. now rewrite Hn.
Qed.

(** X21.  A continuation call with the cursor on the last element of the chain,
    or beyond it, panics: the cursor is moved first, then the index is out
    of range.  Without a chain, as in a hook that runs before the route is
    served, the call panics on the nil pointer. *)
Theorem DoNext_past_the_end (st : request_state) (k : prog) :
  (forall mds i,
     cursor_at st mds i ->
     ~ (0 <= i + 1 < Z.of_nat (length mds)) ->
     run (DoNext k) st
     = (Panicking (PanicIndex (i + 1) (Z.of_nat (length mds))),
        set_chain st (Some (mkMiddlewareChain mds (i + 1)))))
  /\ (ctx_MiddlewareChain (ctx st) = None ->
      run (DoNext k) st = (Panicking PanicNilDereference, st)).
Proof. apply DoNext_out_of_range. Qed.

Lemma DoNext_past_the_end_witness :
  let st := set_chain (initial_state empty_transport 0)
              (Some (mkMiddlewareChain [Ret; NopMiddleware] 1)) in
  cursor_at st [Ret; NopMiddleware] 1
  /\ ~ (0 <= 1 + 1 < Z.of_nat (length [Ret; NopMiddleware]))
  /\ run (DoNext Ret) st
     = (Panicking (PanicIndex 2 2),
        set_chain st (Some (mkMiddlewareChain [Ret; NopMiddleware] 2))).
Proof.
  intros st.
  assert (H1 : cursor_at st [Ret; NopMiddleware] 1) by reflexivity.
  assert (H2 : ~ (0 <= 1 + 1 < Z.of_nat (length [Ret; NopMiddleware]))) by (cbn; lia).
  split; [exact H1|]. split; [exact H2|].
  exact (proj1 (DoNext_past_the_end st Ret) _ _ H1 H2).
Defined.

(** X22.  A handler that calls [DoNext] twice: the first call reaches the
    sentinel, the second one panics with an index out of range; the panic
    unwinds through the middlewares, whose second chunks are not written. *)
Theorem handler_calling_DoNext_twice (compile : string -> Regexp) (n p m : string)
    (s : bool) (pairs : list (string * string)) (k : prog) (st : request_state) :
  let route := NewRoute compile n p m s (DoNext (DoNext k)) (arounds pairs) in
  let len := Z.of_nat (length pairs) + 2 in
  exists st',
    Route_ServeHTTP route st = (Panicking (PanicIndex len len), st')
    /\ written st' = written st ++ pairs.*1.
Proof.
  cbn zeta. unfold Route_ServeHTTP, NewRoute, MiddlewareChain_Copy, NewMiddlewareChain.
  cbn [route_MiddlewareChain middlewares].
  set (mds := arounds pairs ++ [DoNext (DoNext k); NopMiddleware]).
  destruct (run_into_arounds pairs [] [DoNext (DoNext k); NopMiddleware]
              (set_chain st (Some (mkMiddlewareChain mds (-1)))))
    as (st_in & Hw & Hc & Hrun); [reflexivity|].
  cbn [length app Nat.add] in Hc. fold mds in Hc.
  assert (Hlen : Z.of_nat (length mds) = Z.of_nat (length pairs) + 2).
  { unfold mds. rewrite length_app, length_arounds. cbn. lia. }
  pose proof (advance_at _ _ _ Hc) as Ha.
  replace (Z.of_nat (length pairs) - 1 + 1)
    with (Z.of_nat (length (arounds pairs))) in Ha
    by (rewrite length_arounds; lia).
  unfold mds in Ha at 2. rewrite slice_index_middle in Ha. rewrite length_arounds in Ha.
  set (st_h := set_chain st_in _) in Ha.
  assert (Hh : cursor_at st_h mds (Z.of_nat (length pairs))) by reflexivity.
  pose proof (advance_at _ _ _ Hh) as Ha2.
  replace (Z.of_nat (length pairs) + 1)
    with (Z.of_nat (length (arounds pairs ++ [DoNext (DoNext k)])))
    in Ha2 at 2 by (rewrite length_app, length_arounds; cbn; lia).
  unfold mds in Ha2 at 2.
  rewrite (app_assoc _ [DoNext (DoNext k)] [NopMiddleware]) in Ha2.
  rewrite slice_index_middle in Ha2.
  set (st_s := set_chain st_h _) in Ha2.
  assert (Hs : cursor_at st_s mds (Z.of_nat (length pairs) + 1)) by reflexivity.
  destruct (DoNext_out_of_range st_s k) as [Hpanic _].
  specialize (Hpanic mds _ Hs ltac:(lia)).
  rewrite Hrun, run_DoNext, Ha, run_DoNext, Ha2. unfold NopMiddleware at 1.
  rewrite run_Ret, Hpanic.
  replace (Z.of_nat (length pairs) + 1 + 1) with (Z.of_nat (length pairs) + 2) by lia.
  rewrite Hlen.
  eexists. split; [reflexivity|].
  unfold written, st_s, st_h. cbn [w set_chain]. rewrite Hw, Chunks_rw_Write_all.
  reflexivity.
Qed.

(** ** app.go: the groups of a pattern *)

Lemma m_lit_app {R} (lit s : string) (k : string -> option R) :
  m_lit lit (lit +:+ s) k = k s.
Proof. unfold m_lit. now rewrite HasPrefix_app, string_drop_app. Qed.

Lemma m_lit_head {R} (a p : ascii) (s lit : string) (k : string -> option R) :
  Ascii.eqb a p = false -> m_lit (String p lit) (String a s) k = None.
Proof. intros H. unfold m_lit. cbn [HasPrefix]. now rewrite H. Qed.

Lemma lacks_app (c : ascii) (a b : string) :
  lacks c (a +:+ b) = lacks c a && lacks c b.
Proof.
  induction a as [|x a IH]; sapp; cbn [lacks]; [reflexivity|].
  now rewrite IH, andb_assoc.
Qed.

Lemma string_split_longer (m rest m' rest' : string) :
  m +:+ rest = m' +:+ rest' ->
  (String.length m < String.length m')%nat ->
  exists a x, m' = m +:+ String a x /\ rest = String a x +:+ rest'.
Proof.
  revert m'. induction m as [|c m IH]; intros [|c' m'] H Hl; sapp; cbn in Hl; try lia.
  - exists c', m'. sapp. split; [reflexivity|exact H].
  - injection H as -> H. destruct (IH m' H ltac:(lia)) as (a & x & -> & ->).
    exists a, x. sapp. split; reflexivity.
Qed.

Lemma m_plus_not_None {R} (c : ascii) (s : string) :
  forall k : string -> string -> option R,
    (forall a m rest, s = String a m +:+ rest -> lacks c (String a m) = true ->
       k (String a m) rest = None) ->
    m_plus_not c s k = None.
Proof.
  induction s as [|a s IH]; intros k Hk; cbn [m_plus_not]; [reflexivity|].
  destruct (Ascii.eqb a c) eqn:Ha; [reflexivity|].
  rewrite IH.
  - apply (Hk a EmptyString s); [now sapp|]. cbn [lacks]. now rewrite Ha.
  - intros a' m rest -> Hl. apply (Hk a (String a' m) rest); [now sapp|].
    cbn [lacks] in *. now rewrite Ha, Hl.
Qed.

(** [[^c]+] takes the longest text for which the rest of the pattern
    matches. *)
Lemma m_plus_not_pick {R} (c : ascii) (m : string) :
  forall (rest : string) (k : string -> string -> option R) (r : R),
    (0 < String.length m)%nat ->
    lacks c m = true ->
    k m rest = Some r ->
    (forall m' rest', m +:+ rest = m' +:+ rest' -> lacks c m' = true ->
       (String.length m < String.length m')%nat -> k m' rest' = None) ->
    m_plus_not c (m +:+ rest) k = Some r.
Proof.
  induction m as [|a m IH]; intros rest k r Hlen Hc Hk Hlonger; [cbn in Hlen; lia|].
  sapp. cbn [m_plus_not]. cbn [lacks] in Hc. apply andb_prop in Hc as [Ha Hc].
  apply negb_true_iff in Ha. rewrite Ha.
  destruct m as [|b m].
  - sapp. rewrite m_plus_not_None; [exact Hk|].
    intros a' m' rest' -> Hl. apply Hlonger; [now sapp| |cbn; lia].
    cbn [lacks] in *. now rewrite Ha, Hl.
  - rewrite (IH rest (fun m0 rest0 => k (String a m0) rest0) r); try easy.
    + cbn. lia.
    + intros m' rest' H Hl Hlen'. apply Hlonger; [sapp; now rewrite H| |cbn in *; lia].
      cbn [lacks]. now rewrite Ha, Hl.
Qed.

Lemma gt_guarded_split (x : string) :
  forall (T y : string),
    gt_guarded T = true -> T = x +:+ String ">" y -> lacks "<" x = true -> False.
Proof.
  induction x as [|a x IH]; intros T y HT -> Hx; sapp.
  - cbn in HT. discriminate.
  - cbn [lacks] in Hx. apply andb_prop in Hx as [Ha Hx]. apply negb_true_iff in Ha.
    cbn [gt_guarded] in HT. rewrite Ha in HT.
    destruct (Ascii.eqb a ">"); [discriminate|]. now apply (IH _ y HT).
Qed.

Lemma gt_guarded_app (a b : string) :
  lacks ">" a = true -> gt_guarded b = true -> gt_guarded (a +:+ b) = true.
Proof.
  induction a as [|x a IH]; intros Ha Hb; sapp; [exact Hb|].
  cbn [lacks] in Ha. apply andb_prop in Ha as [Hx Ha]. apply negb_true_iff in Hx.
  cbn [gt_guarded]. rewrite Hx. destruct (Ascii.eqb x "<"); auto.
Qed.

Lemma lt_free_S (k : nat) (s : string) : lt_free (S k) s = true -> lt_free k s = true.
Proof.
  revert s. induction k as [|k IH]; intros s H; [reflexivity|].
  destruct s as [|a s]; [reflexivity|]. cbn [lt_free] in *.
  apply andb_prop in H as [-> H]. now rewrite (IH _ H).
Qed.

Lemma lt_free_app (l : string) :
  forall (k : nat) (R : string),
    lacks "<" l = true -> lt_free k R = true -> lt_free k (l +:+ R) = true.
Proof.
  induction l as [|a l IH]; intros k R Hl HR; sapp; [exact HR|].
  cbn [lacks] in Hl. apply andb_prop in Hl as [Ha Hl].
  destruct k as [|k]; [reflexivity|]. cbn [lt_free]. rewrite Ha. cbn [andb].
  apply IH; [exact Hl|now apply lt_free_S].
Qed.

Lemma well_formed_Lit (text : string) :
  well_formed (Lit text) = true ->
  lacks "(" text = true /\ lacks "<" text = true /\ lacks ">" text = true.
Proof. cbn [well_formed]. rewrite !andb_true_iff. tauto. Qed.

Lemma well_formed_Group (name class : string) :
  well_formed (Group name class) = true ->
  ((0 < String.length name)%nat /\ lacks "<" name = true /\ lacks ">" name = true)
  /\ (0 < String.length class)%nat /\ lacks ")" class = true
     /\ lacks "<" class = true /\ lacks ">" class = true.
Proof. cbn [well_formed]. rewrite !andb_true_iff, !Nat.ltb_lt. tauto. Qed.

Lemma gt_guarded_render (segs : list segment) :
  forallb well_formed segs = true -> gt_guarded (render segs) = true.
Proof.
  induction segs as [|[text|name class] segs IH]; cbn [forallb render]; [reflexivity|..];
    intros H; apply andb_prop in H as [Hw H].
  - apply well_formed_Lit in Hw as (_ & _ & Hgt). apply gt_guarded_app; auto.
  - sapp. reflexivity.
Qed.

Lemma lt_free_render (segs : list segment) :
  forallb well_formed segs = true -> lt_free 3 (render segs) = true.
Proof.
  induction segs as [|[text|name class] segs IH]; cbn [forallb render]; [reflexivity|..];
    intros H; apply andb_prop in H as [Hw H].
  - apply well_formed_Lit in Hw as (_ & Hlt & _). apply lt_free_app; auto.
  - sapp. reflexivity.
Qed.

(** The text of a class, the parenthesis that closes its group and what
    follows the group. *)
Lemma gt_guarded_tail (class R : string) :
  lacks ">" class = true -> gt_guarded R = true ->
  gt_guarded (class +:+ String ")" R) = true.
Proof. intros Hc HR. apply gt_guarded_app; [exact Hc|exact HR]. Qed.

Lemma name_then_gt {R} (name T : string) (k : string -> string -> option R) (r : R) :
  (0 < String.length name)%nat ->
  lacks "<" name = true ->
  gt_guarded T = true ->
  k name T = Some r ->
  m_plus_not "<" (name +:+ String ">" T)
    (fun m s2 => m_lit ">" s2 (fun s3 => k m s3)) = Some r.
Proof.
  intros Hlen Hlt HT Hk. apply m_plus_not_pick; [exact Hlen|exact Hlt|..].
  - change (String ">" T) with (">" +:+ T). now rewrite m_lit_app.
  - intros m' rest' Heq Hm' Hl.
    destruct (string_split_longer _ _ _ _ Heq Hl) as (a & x & -> & Hrest).
    sapp. injection Hrest as <- ->.
    destruct rest' as [|b rest']; [reflexivity|].
    destruct (Ascii.eqb b ">") eqn:Hb; [|now apply m_lit_head].
    apply Ascii.eqb_eq in Hb as ->. exfalso.
    rewrite lacks_app in Hm'. apply andb_prop in Hm' as [_ Hx].
    cbn [lacks] in Hx. apply andb_prop in Hx as [_ Hx].
    exact (gt_guarded_split x _ rest' HT eq_refl Hx).
Qed.

Lemma class_then_paren {R} (class rest : string) (k : string -> option R) (r : R) :
  (0 < String.length class)%nat ->
  lacks ")" class = true ->
  k rest = Some r ->
  m_plus_not ")" (class +:+ String ")" rest)
    (fun _ s4 => m_lit ")" s4 k) = Some r.
Proof.
  intros Hlen Hc Hk. apply m_plus_not_pick; [exact Hlen|exact Hc|..].
  - change (String ")" rest) with (")" +:+ rest). now rewrite m_lit_app.
  - intros m' rest' Heq Hm' Hl.
    destruct (string_split_longer _ _ _ _ Heq Hl) as (a & x & -> & Hrest).
    sapp. injection Hrest as <- ->.
    rewrite lacks_app in Hm'. apply andb_prop in Hm' as [_ Hx].
    cbn in Hx. discriminate.
Qed.

Lemma match_param_group_at (name class R : string) :
  well_formed (Group name class) = true ->
  gt_guarded R = true ->
  match_param_group ("(?P<" +:+ name +:+ ">" +:+ class +:+ ")" +:+ R) = Some R.
Proof.
  intros Hw HR. apply well_formed_Group in Hw as ((Hn & Hnlt & _) & Hc & Hcp & _ & Hcgt).
  unfold match_param_group. rewrite m_lit_app.
  change (">" +:+ class +:+ ")" +:+ R) with (String ">" (class +:+ String ")" R)).
  apply (name_then_gt name _
           (fun _ s3 => m_plus_not ")" s3 (fun _ s4 => m_lit ")" s4 (fun s5 => Some s5))));
    [exact Hn|exact Hnlt|now apply gt_guarded_tail|].
  now apply class_then_paren.
Qed.

Lemma match_param_name_at (name T : string) :
  (0 < String.length name)%nat ->
  lacks "<" name = true ->
  gt_guarded T = true ->
  match_param_name ("?P<" +:+ name +:+ ">" +:+ T) = Some (name, T).
Proof.
  intros Hn Hlt HT. unfold match_param_name. rewrite m_lit_app.
  change (">" +:+ T) with (String ">" T).
  now apply (name_then_gt name T (fun n s3 => Some (n, s3))).
Qed.

Lemma match_param_group_head (a : ascii) (s : string) :
  Ascii.eqb a "(" = false -> match_param_group (String a s) = None.
Proof. intros H. unfold match_param_group. now apply m_lit_head. Qed.

Lemma match_param_name_None (s : string) :
  lt_free 3 s = true -> match_param_name s = None.
Proof.
  intros H. unfold match_param_name, m_lit.
  destruct (HasPrefix s "?P<") eqn:E; [|reflexivity].
  apply HasPrefix_true in E. rewrite E in H. sapp. cbn in H. discriminate.
Qed.

(** *** The scans pass over the characters of the match found last *)

Lemma replace_param_groups_skip (x : string) :
  forall (rest : string) (args : list string) (counter : Z),
    replace_param_groups (x +:+ rest) (String.length x) args counter
    = replace_param_groups rest 0 args counter.
Proof.
  induction x as [|a x IH]; intros rest args counter; sapp; [reflexivity|].
  cbn [String.length replace_param_groups]. apply IH.
Qed.

Lemma find_param_names_skip (x : string) :
  forall rest : string,
    find_param_names (x +:+ rest) (String.length x) = find_param_names rest 0.
Proof.
  induction x as [|a x IH]; intros rest; sapp; [reflexivity|].
  cbn [String.length find_param_names]. apply IH.
Qed.

Lemma replace_param_groups_lit (l : string) :
  forall (R : string) (args : list string) (counter : Z),
    lacks "(" l = true ->
    replace_param_groups (l +:+ R) 0 args counter
    = (tail ← replace_param_groups R 0 args counter; Returned (l +:+ tail)).
Proof.
  induction l as [|a l IH]; intros R args counter Hl; sapp.
  - now destruct (replace_param_groups R 0 args counter).
  - cbn [lacks] in Hl. apply andb_prop in Hl as [Ha Hl]. apply negb_true_iff in Ha.
    cbn [replace_param_groups]. rewrite (match_param_group_head _ _ Ha), (IH _ _ _ Hl).
    destruct (replace_param_groups R 0 args counter); cbn; now sapp.
Qed.

Lemma find_param_names_lit (l : string) :
  forall R : string,
    lacks "<" l = true -> lt_free 3 R = true ->
    find_param_names (l +:+ R) 0 = find_param_names R 0.
Proof.
  induction l as [|a l IH]; intros R Hl HR; sapp; [reflexivity|].
  cbn [find_param_names].
  rewrite match_param_name_None
    by (change (String a (l +:+ R)) with (String a l +:+ R); now apply lt_free_app).
  cbn [lacks] in Hl. apply andb_prop in Hl as [_ Hl]. now apply IH.
Qed.

Ltac snorm := repeat (progress (rewrite ?app_String, ?app_Empty, ?string_app_assoc)).

Lemma string_length_sub (x rest : string) :
  (String.length (x +:+ rest) - String.length rest)%nat = String.length x.
Proof. rewrite string_app_length. lia. Qed.

Lemma replace_param_groups_filled (segs : list segment) :
  forall (used args : list string),
    forallb well_formed segs = true ->
    (length (group_names segs) <= length args)%nat ->
    replace_param_groups (render segs) 0 (used ++ args) (Z.of_nat (length used) - 1)
    = Returned (fill segs args).
Proof.
  induction segs as [|[text|name class] segs IH]; intros used args Hw Hlen;
    cbn [render fill forallb group_names length] in *; [reflexivity|..];
    apply andb_prop in Hw as [Hseg Hw].
  - apply well_formed_Lit in Hseg as (Hp & _ & _).
    rewrite (replace_param_groups_lit _ _ _ _ Hp), (IH _ _ Hw Hlen). reflexivity.
  - destruct args as [|arg args]; [cbn in Hlen; lia|]. cbn [length] in Hlen.
    pose proof (match_param_group_at name class (render segs) Hseg
                  (gt_guarded_render _ Hw)) as Hm.
    set (p' := "?P<" +:+ name +:+ ">" +:+ class +:+ ")") in *.
    assert (Hp : "(?P<" +:+ name +:+ ">" +:+ class +:+ ")" +:+ render segs
                 = String "(" (p' +:+ render segs)).
    { unfold p'. now snorm. }
    rewrite Hp in *. cbn [replace_param_groups]. rewrite Hm.
    replace (Z.of_nat (length used) - 1 + 1) with (Z.of_nat (length used)) by lia.
    rewrite slice_index_middle. cbn [mbind go_result_bind].
    rewrite string_length_sub, replace_param_groups_skip.
    specialize (IH (used ++ [arg]) args Hw ltac:(lia)).
    rewrite <- app_assoc, length_app in IH. cbn [length app] in IH.
    replace (Z.of_nat (length used + 1) - 1) with (Z.of_nat (length used)) in IH by lia.
    rewrite IH. reflexivity.
Qed.

Lemma find_param_names_render (segs : list segment) :
  forallb well_formed segs = true ->
  find_param_names (render segs) 0 = group_names segs.
Proof.
  induction segs as [|[text|name class] segs IH]; intros Hw;
    cbn [render forallb group_names] in *; [reflexivity|..];
    apply andb_prop in Hw as [Hseg Hw].
  - apply well_formed_Lit in Hseg as (_ & Hlt & _).
    rewrite find_param_names_lit; auto using lt_free_render.
  - apply well_formed_Group in Hseg as ((Hn & Hnlt & _) & _ & _ & Hclt & Hcgt).
    assert (HT : gt_guarded (class +:+ ")" +:+ render segs) = true)
      by (apply gt_guarded_tail; auto using gt_guarded_render).
    pose proof (match_param_name_at name _ Hn Hnlt HT) as Hm.
    set (T := class +:+ ")" +:+ render segs) in *.
    set (q := "P<" +:+ name +:+ ">") in *.
    assert (Hq : "?P<" +:+ name +:+ ">" +:+ T = String "?" (q +:+ T)).
    { unfold q. now snorm. }
    assert (Hp : "(?P<" +:+ name +:+ ">" +:+ T = String "(" (String "?" (q +:+ T))).
    { unfold q. now snorm. }
    rewrite Hq in Hm. rewrite Hp.
    cbn [find_param_names].
    rewrite match_param_name_None by reflexivity.
    rewrite Hm, string_length_sub, find_param_names_skip. f_equal.
    unfold T. rewrite <- string_app_assoc.
    rewrite find_param_names_lit; auto using lt_free_render.
    rewrite lacks_app, Hclt. reflexivity.
Qed.

(** X23.  [NewRoute] finds the names of the groups of a pattern, in the order of
    the groups, when the pattern is made of literal text without [(], [<]
    and [>] and of groups [(?P<name>class)] whose name holds no [<] and no
    [>] and whose class holds no [)], [<] and [>]. *)
Theorem NewRoute_PathParamNames (compile : string -> Regexp) (n m : string) (s : bool)
    (handler : Middleware) (mws : list Middleware) (segs : list segment) :
  forallb well_formed segs = true ->
  PathParamNames (NewRoute compile n (render segs) m s handler mws) = group_names segs.
Proof. intros Hw. cbn [NewRoute PathParamNames]. now apply find_param_names_render. Qed.

Lemma NewRoute_PathParamNames_witness :
  PathParamNames
    (NewRoute simple_regexp "show" "/users/(?P<user>[^/]+)/posts/(?P<post>[0-9]+)"
       "GET" false Ret [])
  = ["user"; "post"].
Proof.
  exact (NewRoute_PathParamNames simple_regexp "show" "GET" false Ret []
           [Lit "/users/"; Group "user" "[^/]+"; Lit "/posts/"; Group "post" "[0-9]+"]
           eq_refl).
Defined.

(** X24.  [BuildUrl] on such a pattern returns the pattern with its groups
    replaced by the arguments, from left to right, when there are at least
    as many arguments as groups; the arguments are not escaped and the
    arguments left over are dropped. *)
Theorem BuildUrl_fills_groups (app : App) (n : string) (route : Route)
    (segs : list segment) (args : list string) :
  Routes app !! n = Some route ->
  PatternString route = render segs ->
  forallb well_formed segs = true ->
  (length (group_names segs) <= length args)%nat ->
  BuildUrl app n args = Returned (fill segs args).
Proof.
  intros Hr Hp Hw Hlen. unfold BuildUrl. rewrite Hr, Hp.
  exact (replace_param_groups_filled segs [] args Hw Hlen).
Qed.

Lemma BuildUrl_fills_groups_witness :
  BuildUrl buildurl_app "p1" ["a/b"; "c"; "d"] = Returned "/p1/a/b/c".
Proof.
  destruct (Routes buildurl_app !! "p1") as [route|] eqn:Hr; [|vm_compute in Hr; discriminate].
  apply (BuildUrl_fills_groups buildurl_app "p1" route
           [Lit "/p1/"; Group "param1" "[^/]+"; Lit "/"; Group "param2" "[^/]+"]
           ["a/b"; "c"; "d"] Hr).
  - vm_compute in Hr. injection Hr as <-. reflexivity.
  - reflexivity.
  - cbn. lia.
Defined.

(** ** app.go: mount points *)

Lemma slashes_snoc (n : nat) : slashes n +:+ "/" = slashes (S n).
Proof. induction n as [|n IH]; [reflexivity|]. cbn [slashes]. sapp. now rewrite IH. Qed.

Lemma TrimRight_slash_slashes (n : nat) : TrimRight_slash (slashes n) = EmptyString.
Proof. induction n as [|n IH]; cbn [slashes TrimRight_slash]; [reflexivity|now rewrite IH]. Qed.

Lemma TrimRight_slash_stem (stem : string) (n : nat) :
  (forall t, stem <> t +:+ "/") ->
  TrimRight_slash (stem +:+ slashes n) = stem.
Proof.
  induction stem as [|c stem IH]; intros Hs; sapp; [apply TrimRight_slash_slashes|].
  cbn [TrimRight_slash]. rewrite IH.
  - destruct stem as [|c' stem]; [|reflexivity].
    destruct (Ascii.eqb c "/") eqn:Hc; [|reflexivity].
    apply Ascii.eqb_eq in Hc as ->. now destruct (Hs EmptyString).
  - intros t ->. apply (Hs (String c t)). now sapp.
Qed.

Lemma TrimRight_slash_split (s : string) :
  exists n, s = TrimRight_slash s +:+ slashes n /\ forall t, TrimRight_slash s <> t +:+ "/".
Proof.
  induction s as [|c s (n & Hs & Hn)]; [exists O; split; [reflexivity|]|].
  - intros [|a t]; sapp; discriminate.
  - cbn [TrimRight_slash]. destruct (TrimRight_slash s) as [|c' stem] eqn:E.
    + sapp. destruct (Ascii.eqb c "/") eqn:Hc.
      * apply Ascii.eqb_eq in Hc as ->. exists (S n). sapp. split; [now rewrite Hs|].
        intros [|a t]; sapp; discriminate.
      * exists n. sapp. split; [now rewrite Hs|].
        intros [|a [|b t]]; sapp; intros [=]. subst. now rewrite Ascii.eqb_refl in Hc.
    + exists n. sapp. split; [now rewrite Hs|].
      intros [|a t]; sapp; intros [=]. subst. now apply (Hn t).
Qed.

(** X25.  [App.MountPoint] normalises the path: the slashes at its end are
    replaced by exactly one, so that paths that differ only in the number
    of slashes at their end give the same mount point. *)
Theorem App_MountPoint_Path (app : App) (path : string) :
  exists (stem : string) (n : nat),
    path = stem +:+ slashes n
    /\ (forall t, stem <> t +:+ "/")
    /\ App_MountPoint app path = mkMountPoint (stem +:+ "/") (Middlewares app)
    /\ forall k, App_MountPoint app (stem +:+ slashes k) = App_MountPoint app path.
Proof.
  destruct (TrimRight_slash_split path) as (n & Hp & Hn).
  exists (TrimRight_slash path), n. split; [exact Hp|]. split; [exact Hn|].
  split; [reflexivity|].
  intros k. unfold App_MountPoint. now rewrite (TrimRight_slash_stem _ k Hn).
Qed.

(** X26.  A route registered on a mount point is stored under its name, where it
    replaces the route that had this name; its pattern is the path of the
    mount point followed by the pattern given; its chain is made of the
    middlewares the application had when the mount point was created, those
    added to the mount point, those of the route, the handler and the
    sentinel.  Middlewares the application receives after the mount point
    was created are not part of it. *)
Theorem MountPoint_Route_registers (compile : string -> Regexp) (app : App)
    (path : string) (mount_mws late_mws : list Middleware) (n p m : string) (s : bool)
    (h : Middleware) (mws : list Middleware) :
  let mt := MountPoint_Use (App_MountPoint app path) mount_mws in
  let app1 := App_Use app late_mws in
  let app2 := MountPoint_Route compile mt app1 n p m s h mws in
  (exists route,
     Routes app2 !! n = Some route
     /\ Name route = n /\ Method route = m /\ IsStatic route = s
     /\ PatternString route = TrimRight_slash path +:+ "/" +:+ p
     /\ middlewares (route_MiddlewareChain route)
        = Middlewares app ++ mount_mws ++ mws ++ [h; NopMiddleware]
     /\ sp (route_MiddlewareChain route) = -1)
  /\ (forall n', n' <> n -> Routes app2 !! n' = Routes app !! n')
  /\ Middlewares app2 = Middlewares app ++ late_mws.
Proof.
  cbn zeta. split; [|split].
  - eexists. split; [apply lookup_insert_eq|].
    cbn. rewrite <- !app_assoc. now rewrite string_app_assoc.
  - intros n' Hn. cbn. now rewrite lookup_insert_ne by congruence.
  - reflexivity.
Qed.

(** ** app.go: path parameters *)

Lemma Values_Add_lookup (params : gmap string (list string)) (key val name : string) :
  Values_Add params key val !!! name
  = params !!! name ++ (if decide (key = name) then [val] else []).
Proof.
  unfold Values_Add. destruct (decide (key = name)) as [->|Hne].
  - now rewrite lookup_total_insert_eq.
  - rewrite lookup_total_insert_ne by exact Hne. now rewrite app_nil_r.
Qed.

Lemma drop_cons_nth {A} (l : list A) (k : nat) (x : A) (rest : list A) :
  drop k l = x :: rest -> nth_error l k = Some x /\ drop (S k) l = rest.
Proof.
  revert k. induction l as [|a l IH]; intros [|k] H; cbn in *; try discriminate.
  - injection H as -> ->. split; [reflexivity|apply drop_0].
  - now apply IH.
Qed.

Lemma bind_params_from (names : list string) :
  forall (subs : list string) (i : Z) (params : gmap string (list string)),
    0 <= i ->
    (Z.to_nat (i + 1) <= length subs)%nat ->
    let vals := drop (Z.to_nat (i + 1)) subs in
    ((length names <= length vals)%nat ->
     exists params',
       bind_params names subs i params = (Done, params')
       /\ (forall name, params' !!! name = params !!! name ++ values_of name names vals)
       /\ (forall name, name ∉ names -> params' !! name = params !! name))
    /\ ((length vals < length names)%nat ->
        exists params',
          bind_params names subs i params
          = (Panicking (PanicIndex (Z.of_nat (length subs)) (Z.of_nat (length subs))),
             params')).
Proof.
  induction names as [|name names IH]; intros subs i params Hi Hsubs vals.
  - split; [|cbn; lia]. intros _. exists params. split; [reflexivity|].
    split; [|reflexivity]. intros name. unfold values_of. cbn. now rewrite app_nil_r.
  - cbn [bind_params length]. subst vals.
    destruct (drop (Z.to_nat (i + 1)) subs) as [|v vals] eqn:Hd.
    + split; [cbn; lia|]. intros _.
      assert (Hlen : length subs = Z.to_nat (i + 1)).
      { apply (f_equal length) in Hd. rewrite length_drop in Hd. cbn in Hd. lia. }
      destruct (slice_index subs (i + 1)) as [x|pv] eqn:Hs.
      * apply slice_index_Returned in Hs. lia.
      * apply slice_index_Panicked in Hs as [_ ->]. exists params.
        replace (i + 1) with (Z.of_nat (length subs)) by lia. reflexivity.
    + apply drop_cons_nth in Hd as [Hnth Hd].
      assert (Hlt : (Z.to_nat (i + 1) < length subs)%nat)
        by (apply nth_error_Some; congruence).
      assert (Hs : slice_index subs (i + 1) = Returned v)
        by (apply slice_index_Returned; split; [lia|exact Hnth]).
      rewrite Hs.
      destruct (IH subs (i + 1) (Values_Add params name v) ltac:(lia)) as [Hok Hpanic].
      { replace (Z.to_nat (i + 1 + 1)) with (S (Z.to_nat (i + 1))) by lia. lia. }
      replace (Z.to_nat (i + 1 + 1)) with (S (Z.to_nat (i + 1))) in Hok, Hpanic by lia.
      rewrite Hd in Hok, Hpanic. split.
      * intros Hl. destruct (Hok ltac:(cbn in Hl; lia)) as (params' & Hb & Hv & Hother).
        exists params'. split; [exact Hb|]. split.
        -- intros name'. rewrite Hv, Values_Add_lookup, <- app_assoc. f_equal.
           unfold values_of. cbn [zip zip_with]. rewrite filter_cons. cbn [fst].
           destruct (decide (name = name')); reflexivity.
        -- intros name' Hnot. apply not_elem_of_cons in Hnot as [Hne Hnot].
           rewrite (Hother _ Hnot). unfold Values_Add.
           now rewrite lookup_insert_ne by congruence.
      * intros Hl. apply Hpanic. cbn in Hl. lia.
Qed.

(** X27.  The loop that binds the path parameters of the route selected: the
    name [i] receives the text of the group [i + 1] of the match, after the
    values the name already has, so a name used twice in a pattern receives
    both texts; the other names are left alone.  When the match has fewer
    groups than the route has names, the loop panics on the first name
    without a group. *)
Theorem bind_params_spec (names subs : list string) (whole : string)
    (groups : list string) (params : gmap string (list string)) :
  subs = whole :: groups ->
  ((length names <= length groups)%nat ->
   exists params',
     bind_params names subs 0 params = (Done, params')
     /\ (forall name, params' !!! name = params !!! name ++ values_of name names groups)
     /\ (forall name, name ∉ names -> params' !! name = params !! name))
  /\ ((length groups < length names)%nat ->
      exists params',
        bind_params names subs 0 params
        = (Panicking (PanicIndex (Z.of_nat (length subs)) (Z.of_nat (length subs))),
           params')).
Proof.
  intros ->.
  exact (bind_params_from names (whole :: groups) 0 params ltac:(lia) ltac:(cbn; lia)).
Qed.

Lemma bind_params_spec_witness :
  (exists params',
     bind_params ["a"; "b"; "a"] ["/x/y/z"; "x"; "y"; "z"] 0 ∅ = (Done, params')
     /\ (forall name, params' !!! name
                      = (∅ : gmap string (list string)) !!! name
                        ++ values_of name ["a"; "b"; "a"] ["x"; "y"; "z"])
     /\ (forall name, name ∉ ["a"; "b"; "a"] ->
                      params' !! name = (∅ : gmap string (list string)) !! name))
  /\ values_of "a" ["a"; "b"; "a"] ["x"; "y"; "z"] = ["x"; "z"].
Proof.
  split; [|reflexivity].
  apply (proj1 (bind_params_spec ["a"; "b"; "a"] ["/x/y/z"; "x"; "y"; "z"] "/x/y/z"
                  ["x"; "y"; "z"] ∅ eq_refl)).
  cbn. lia.
Defined.

(** ** app.go: a request no route answers *)

(** X28.  When no route answers a request, the application that has kept the
    default handler and has no hook on [start_request] and [end_request]
    answers with status 404 and the body of [http.NotFound]; no route is
    set in the context, the response time is recorded, and the hooks on
    [start_action] and [end_action], whatever they are, do not run. *)
Theorem no_route_gives_404 (app : App) (entries : list (string * Route)) (r : Request)
    (t0 t1 : Time) :
  OnNotFound app = DefaultOnNotFound ->
  app_Hooks app !!! "start_request" = [] ->
  app_Hooks app !!! "end_request" = [] ->
  List.find (route_matches (request_method app r) (URL_Path r)) entries.*2 = None ->
  exists st,
    ServeHTTP app entries r empty_transport t0 t1 = (Done, st)
    /\ Code (ResponseWriter (w st)) = Some 404
    /\ Body (ResponseWriter (w st)) = "404 page not found" +:+ String "010" EmptyString
    /\ status (w st) = 404
    /\ ctx_Route (ctx st) = None
    /\ ResponseTime (ctx st) = time_Sub t1 t0.
Proof.
  intros Hnf Hsr Her Hfind.
  assert (Hs : forall st, Hooks_Run (app_Hooks app) "start_request" HookDirectionNormal st
                           = (Done, st))
    by (intros st; unfold Hooks_Run; unfold Hook in *; now rewrite Hsr).
  assert (He : forall st, Hooks_Run (app_Hooks app) "end_request" HookDirectionReverse st
                           = (Done, st))
    by (intros st; unfold Hooks_Run; unfold Hook in *; now rewrite Her).
  unfold ServeHTTP, ServeHTTP_body, cleanup. rewrite Hs. cbn [and_then].
  rewrite match_routes_first, Hfind, Hnf.
  unfold DefaultOnNotFound, http_Error.
  rewrite run_WriteHeader, run_Write, run_Ret. cbn [and_then]. rewrite He.
  eexists. split; [reflexivity|]. repeat split.
Qed.

Lemma no_route_gives_404_witness :
  exists st,
    ServeHTTP buildurl_app (map_to_list (Routes buildurl_app))
      (mkRequest "GET" "/p3/page1/value" "") empty_transport 0 5 = (Done, st)
    /\ Code (ResponseWriter (w st)) = Some 404
    /\ Body (ResponseWriter (w st)) = "404 page not found" +:+ String "010" EmptyString
    /\ status (w st) = 404
    /\ ctx_Route (ctx st) = None
    /\ ResponseTime (ctx st) = time_Sub 5 0.
Proof.
  apply (no_route_gives_404 buildurl_app (map_to_list (Routes buildurl_app))
           (mkRequest "GET" "/p3/page1/value" "") 0 5).
  - reflexivity.
  - reflexivity.
  - reflexivity.
  - vm_compute. reflexivity.
Defined.

(** ** app.go: log levels *)

(** X29.  The name of a log level is [UNKNOWN] exactly for the values that are
    not one of the five levels from [LogLevelDebug] to [LogLevelCrit];
    [LogLevelUnknown] is one of them. *)
Theorem LogLevel_String_UNKNOWN (ll : Z) :
  LogLevel_String ll = "UNKNOWN" <-> ~ (LogLevelDebug <= ll <= LogLevelCrit).
Proof.
  unfold LogLevel_String, logLevelStrings, LogLevelDebug, LogLevelInfo, LogLevelWarn,
    LogLevelError, LogLevelCrit.
  destruct (decide (ll = 1)) as [->|H1]; [rewrite lookup_insert_eq; split; [discriminate|lia]|].
  rewrite lookup_insert_ne by congruence.
  destruct (decide (ll = 2)) as [->|H2]; [rewrite lookup_insert_eq; split; [discriminate|lia]|].
  rewrite lookup_insert_ne by congruence.
  destruct (decide (ll = 3)) as [->|H3]; [rewrite lookup_insert_eq; split; [discriminate|lia]|].
  rewrite lookup_insert_ne by congruence.
  destruct (decide (ll = 4)) as [->|H4]; [rewrite lookup_insert_eq; split; [discriminate|lia]|].
  rewrite lookup_insert_ne by congruence.
  destruct (decide (ll = 5)) as [->|H5]; [rewrite lookup_insert_eq; split; [discriminate|lia]|].
  rewrite lookup_insert_ne by congruence.
  rewrite lookup_empty. split; [lia|reflexivity].
Qed.
